(** * ttl-cache: a key-value store whose entries are discarded after a time to live

    Shallow embedding of [src/ttl-cache.ts] (class [TTLCache]) and the
    properties of its entry lifecycle.

    - Values are JavaScript values; the only operation the class applies to
      them is the truthiness test [!value].
    - The class mutates [this.cache] and registers callbacks with the
      platform's timer facility, so every method is a computation in a small
      state-and-exception monad over a [World]: the object's fields, the
      queue of pending timers and the clock.
    - The timer facility itself ([setTimeout]) belongs to the platform.  The
      methods only enqueue a request; the rule that says when a request may
      run is kept apart, in [Section Scheduler], and takes the platform's
      effective delay as a parameter.
    - The public [_get] hands out the entry object that the map holds, and
      the fields of [CacheEntry] are writable, so the owner of a cache can
      also write into a stored entry; these writes are events of a run like
      the calls. *)

From Stdlib Require Import ZArith Floats.
From stdpp Require Import gmap strings list fin_maps.

Open Scope string_scope.
Open Scope Z_scope.

(** ** JavaScript values and truthiness *)

Module Js.

(** The class is generic in [T] and the type parameter is erased at run
    time, so a stored value is an arbitrary JavaScript value.  Objects,
    functions and symbols are opaque references. *)
Inductive value : Type :=
| Undefined
| Null
| Boolean (b : bool)
| Number (x : float)
| BigInt (z : Z)
| Str (s : string)
| Symbol (id : positive)
| Object (ref : positive).

(** [ToBoolean]: [undefined], [null], [false], [+0], [-0], [NaN], [0n] and
    the empty string are falsy, everything else is truthy. *)
Definition truthy (v : value) : bool :=
  match v with
  | Undefined | Null => false
  | Boolean b => b
  | Number x => negb (PrimFloat.eqb x PrimFloat.zero || PrimFloat.is_nan x)
  | BigInt z => negb (Z.eqb z 0)
  | Str s => negb (String.eqb s "")
  | Symbol _ | Object _ => true
  end.

(** [!key] for a [key : string]. *)
Definition truthy_string (s : string) : bool := negb (String.eqb s "").

End Js.

(** ** The data model *)

(** [interface CacheEntry<T> { value: T; ttl: number }]: both fields are
    writable.  Durations and instants are whole milliseconds. *)
Record CacheEntry : Type := mkEntry {
  value : Js.value;
  ttl : Z
}.

(** A request handed to [setTimeout]: the callback of [_discard] is the
    closure [() => this.remove(key)], determined by the captured [key];
    [requested] is the delay argument and [created] the instant of the call. *)
Record Timer : Type := mkTimer {
  tkey : string;
  requested : Z;
  created : Z
}.

(** The object's two fields ([this.ttl], [this.cache]) together with the part
    of the platform the class talks to.  [cache] binds each key to the
    current fields of the entry object stored under it. *)
Record World : Type := mkWorld {
  this_ttl : Z;
  cache : gmap string CacheEntry;
  pending : list Timer;
  now : Z
}.

(** ** Computations that read and write the world and may throw *)

Inductive Outcome (A : Type) : Type :=
| Return (a : A)
| Throw (message : string).
Arguments Return {A} a.
Arguments Throw {A} message.

Definition M (A : Type) : Type := World -> Outcome A * World.

Definition ret {A} (a : A) : M A := fun w => (Return a, w).

Definition throw {A} (message : string) : M A := fun w => (Throw message, w).

Definition bind {A B} (c : M A) (k : A -> M B) : M B :=
  fun w =>
    match c w with
    | (Return a, w') => k a w'
    | (Throw message, w') => (Throw message, w')
    end.

Notation "x <- c ;; k" := (bind c (fun x => k))
  (at level 100, c at next level, right associativity).
Notation "c ;;; k" := (bind c (fun _ => k))
  (at level 100, right associativity).

(** The primitive effects the methods use. *)

(** [this.ttl] *)
Definition read_ttl : M Z := fun w => (Return (this_ttl w), w).

(** [this.cache.has(key)] *)
Definition cache_has (key : string) : M bool :=
  fun w => (Return (bool_decide (is_Some (cache w !! key))), w).

(** [this.cache.get(key)]: the entry, or [undefined]. *)
Definition cache_get (key : string) : M (option CacheEntry) :=
  fun w => (Return (cache w !! key), w).

(** [this.cache.set(key, entry)] *)
Definition cache_set (key : string) (entry : CacheEntry) : M unit :=
  fun w => (Return tt,
            mkWorld (this_ttl w) (<[key := entry]> (cache w)) (pending w) (now w)).

(** [this.cache.delete(key)]: [true] when an element was removed. *)
Definition cache_delete (key : string) : M bool :=
  fun w => (Return (bool_decide (is_Some (cache w !! key))),
            mkWorld (this_ttl w) (delete key (cache w)) (pending w) (now w)).

(** [setTimeout(() => this.remove(key), delay)]: the request joins the
    pending timers.  The handle it returns is never used by the class. *)
Definition setTimeout_remove (key : string) (delay : Z) : M unit :=
  fun w => (Return tt,
            mkWorld (this_ttl w) (cache w)
                    (pending w ++ [mkTimer key delay (now w)]) (now w)).

(** ** The class *)

(** [constructor(ttl)], on a platform whose clock shows [t0]. *)
Definition new_TTLCache (ttl0 : Z) (t0 : Z) : World :=
  mkWorld ttl0 ∅ [] t0.

(** [private _discard(key)] *)
Definition _discard (key : string) : M unit :=
  delay <- read_ttl ;;
  setTimeout_remove key delay.

(** [public add(key, value): boolean] *)
Definition add (key : string) (v : Js.value) : M bool :=
  if negb (Js.truthy_string key) then throw "A key is required!" else
  if negb (Js.truthy v) then throw "A value is required!" else
  present <- cache_has key ;;
  if present then ret true else
  t <- read_ttl ;;
  cache_set key (mkEntry v t) ;;;
  _discard key ;;;
  ret true.

(** [public _get(key): CacheEntry<T> | null].  What is returned is the object
    stored in the map, not a copy: the record gives its fields at the
    instant of the call, and what the caller can do to the object afterwards
    is [write_value] and [write_ttl] below. *)
Definition _get (key : string) : M (option CacheEntry) :=
  if negb (Js.truthy_string key) then throw "A key is required" else
  result <- cache_get key ;;
  match result with
  | None => ret None
  | Some entry => ret (Some entry)
  end.

(** [public get(key): T | null] *)
Definition get (key : string) : M Js.value :=
  if negb (Js.truthy_string key) then throw "A key is required" else
  result <- cache_get key ;;
  match result with
  | None => ret Js.Null
  | Some entry => ret (value entry)
  end.

(** [public update(key, value): boolean] *)
Definition update (key : string) (v : Js.value) : M bool :=
  if negb (Js.truthy_string key) then throw "A key is required!" else
  if negb (Js.truthy v) then throw "A value is required!" else
  current <- _get key ;;
  match current with
  | None => ret false
  | Some entry => cache_set key (mkEntry v (ttl entry)) ;;; ret true
  end.

(** [public remove(key): boolean] *)
Definition remove (key : string) : M bool :=
  if negb (Js.truthy_string key) then throw "A key is required!" else
  present <- cache_has key ;;
  if negb present then ret false else
  cache_delete key.

(** ** Writing through the entry that [_get] returns *)

(** [entry.value = v], for the entry object the map holds under [key]: the
    object is changed in place, the map and the timers are not involved. *)
Definition entry_set_value (key : string) (v : Js.value) : M unit :=
  fun w =>
    match cache w !! key with
    | Some entry =>
        (Return tt,
         mkWorld (this_ttl w) (<[key := mkEntry v (ttl entry)]> (cache w))
                 (pending w) (now w))
    | None => (Return tt, w)
    end.

(** [entry.ttl = n], likewise. *)
Definition entry_set_ttl (key : string) (n : Z) : M unit :=
  fun w =>
    match cache w !! key with
    | Some entry =>
        (Return tt,
         mkWorld (this_ttl w) (<[key := mkEntry (value entry) n]> (cache w))
                 (pending w) (now w))
    | None => (Return tt, w)
    end.

(** The owner's statement [cache._get(key)!.value = v].  On a miss [_get]
    returns [null] and the assignment is a [TypeError] of the caller.

    A reference that the owner keeps for later needs no event of its own.
    As long as the object is still the one in the map, writing through it is
    this statement at the later instant.  Once the key has been removed, has
    expired or has been updated, the map no longer holds that object
    ([update] stores a new one), and the class never reads it again. *)
Definition write_value (key : string) (v : Js.value) : M unit :=
  current <- _get key ;;
  match current with
  | None => throw "TypeError"
  | Some _ => entry_set_value key v
  end.

(** The owner's statement [cache._get(key)!.ttl = n]. *)
Definition write_ttl (key : string) (n : Z) : M unit :=
  current <- _get key ;;
  match current with
  | None => throw "TypeError"
  | Some _ => entry_set_ttl key n
  end.

(** ** The timer facility and the runs of the system *)

(** What can happen to a cache: its owner calls a public method or writes
    into the entry that [_get] returned, time passes, or the platform runs
    the callback of a pending timer. *)
Inductive Event : Type :=
| Call_add (key : string) (v : Js.value)
| Call_get (key : string)
| Call__get (key : string)
| Call_update (key : string) (v : Js.value)
| Call_remove (key : string)
| Elapse (d : N)
| Fire (i : nat)
| Write_value (key : string) (v : Js.value)
| Write_ttl (key : string) (n : Z).

(** The clock moves forward by [d] milliseconds. *)
Definition elapse (d : N) (w : World) : World :=
  mkWorld (this_ttl w) (cache w) (pending w) (now w + Z.of_N d).

(** The timer at position [i] leaves the queue. *)
Definition dequeue (i : nat) : M unit :=
  fun w => (Return tt,
            mkWorld (this_ttl w) (cache w) (delete i (pending w)) (now w)).

(** The callback that [_discard] registered: [() => this.remove(key)].  The
    platform drops what the callback returns. *)
Definition callback (t : Timer) : M unit :=
  remove (tkey t) ;;; ret tt.

Section Scheduler.

(** The delay the platform really applies when [setTimeout] is asked for
    [requested] milliseconds. *)
Variable effective_delay : Z -> Z.

(** A pending timer may run once its effective delay has passed. *)
Definition due (t : Timer) (w : World) : bool :=
  created t + effective_delay (requested t) <=? now w.

(** The platform runs the timer at position [i] of the queue, if there is
    one and it is due; otherwise nothing happens. *)
Definition fire (i : nat) : M unit :=
  fun w =>
    match pending w !! i with
    | Some t => if due t w then (dequeue i ;;; callback t) w else (Return tt, w)
    | None => (Return tt, w)
    end.

(** The world after one event.  A call that throws leaves the world as it
    was at the throw. *)
Definition exec (e : Event) (w : World) : World :=
  match e with
  | Call_add key v => snd (add key v w)
  | Call_get key => snd (get key w)
  | Call__get key => snd (_get key w)
  | Call_update key v => snd (update key v w)
  | Call_remove key => snd (remove key w)
  | Elapse d => elapse d w
  | Fire i => snd (fire i w)
  | Write_value key v => snd (write_value key v w)
  | Write_ttl key n => snd (write_ttl key n w)
  end.

Definition run (es : list Event) (w : World) : World :=
  fold_left (fun w e => exec e w) es w.

(** The instant at which each key was last inserted during a run.  This is
    read off the trace, the program keeps no such record: whenever an event
    makes keys appear in the map, they are stamped with the clock. *)
Definition stamp (w w' : World) (born : gmap string Z) : gmap string Z :=
  (const (now w) <$> (cache w' ∖ cache w)) ∪ born.

Fixpoint insertion_times (es : list Event) (w : World) (born : gmap string Z)
  : gmap string Z :=
  match es with
  | [] => born
  | e :: es' => insertion_times es' (exec e w) (stamp w (exec e w) born)
  end.

End Scheduler.

(** Node's [setTimeout]: a delay below 1 or above [TIMEOUT_MAX] is replaced
    by 1. *)
Definition TIMEOUT_MAX : Z := 2147483647.

Definition node_delay (requested : Z) : Z :=
  if (1 <=? requested) && (requested <=? TIMEOUT_MAX) then requested else 1.

(** ** What the trace of a run tells beyond the state *)

(** The number of pending timers whose callback removes [key]. *)
Definition timers_for (key : string) (w : World) : nat :=
  length (filter (fun t => tkey t = key) (pending w)).

(** [throws o]: the call ended in an exception. *)
Definition throws {A} (o : Outcome A) : Prop := exists message, o = Throw message.

(** The state invariant of the specification's data model, as it is worded:
    every present key has exactly one pending removal. *)
Definition exactly_one_timer_per_key (w : World) : Prop :=
  forall key, is_Some (cache w !! key) -> timers_for key w = 1%nat.

(** What every event preserves, for a cache constructed with [ttl0]. *)
Definition consistent (ttl0 : Z) (w : World) : Prop :=
  this_ttl w = ttl0 /\
  (forall key e, cache w !! key = Some e -> key <> "") /\
  (forall t, t ∈ pending w ->
     tkey t <> "" /\ requested t = ttl0 /\ created t <= now w).

(** The event is a write of the owner into a stored entry. *)
Definition is_write (e : Event) : bool :=
  match e with
  | Write_value _ _ | Write_ttl _ _ => true
  | _ => false
  end.

(** The fields of the stored entries are as [add] and [update] leave them:
    a truthy value and the [ttl] of the constructor. *)
Definition entries_as_stored (ttl0 : Z) (w : World) : Prop :=
  forall key e, cache w !! key = Some e ->
    Js.truthy (value e) = true /\ ttl e = ttl0.

(** The invariant on stored values as it is worded: in a cache constructed
    with [ttl0] every stored value is truthy, every entry carries [ttl0],
    and [get] returns [null] only for an absent key. *)
Definition stored_fields_sound (ttl0 : Z) (w : World) : Prop :=
  entries_as_stored ttl0 w /\
  (forall key, key <> "" ->
     (fst (get key w) = Return Js.Null <-> cache w !! key = None)).

(** The event is a call of [remove] with this key. *)
Definition removes (key : string) (e : Event) : bool :=
  match e with
  | Call_remove k => bool_decide (k = key)
  | _ => false
  end.

(** How many times [remove] was called with this key in a run. *)
Definition removals (key : string) (es : list Event) : nat :=
  length (filter (fun e => removes key e = true) es).

(** 1 when the key is present, 0 when it is absent. *)
Definition occupied (key : string) (w : World) : nat :=
  match cache w !! key with
  | Some _ => 1
  | None => 0
  end.

(** Every present key has, among the pending timers, the one that its own
    insertion created. *)
Definition own_timer_pending (w : World) (born : gmap string Z) : Prop :=
  forall key, is_Some (cache w !! key) ->
    exists b, born !! key = Some b /\ mkTimer key (this_ttl w) b ∈ pending w.

(** The execution of the timer identity gap: [key] is added at instant 0,
    removed [d1] later, added again [d2] after that, and after [d3] more the
    platform picks the oldest pending timer. *)
Definition stale_timer_scenario
  (effective_delay : Z -> Z) (ttl0 : Z) (key : string) (v1 v2 : Js.value)
  (d1 d2 d3 : N) : Prop :=
  let inserted := exec effective_delay (Call_add key v1) (new_TTLCache ttl0 0) in
  let removed := run effective_delay [Elapse d1; Call_remove key] inserted in
  let reinserted := run effective_delay [Elapse d2; Call_add key v2] removed in
  let w := elapse d3 reinserted in
  let w' := exec effective_delay (Fire 0) w in
  (* inserted, removed by hand, inserted again within the first ttl *)
  cache inserted !! key = Some (mkEntry v1 ttl0) /\
  cache removed !! key = None /\
  cache reinserted !! key = Some (mkEntry v2 ttl0) /\
  now reinserted < now inserted + ttl0 /\
  (* the timer of the first insertion is still pending, the newer entry is there *)
  pending w !! 0%nat = Some (mkTimer key ttl0 (now inserted)) /\
  cache w !! key = Some (mkEntry v2 ttl0) /\
  (* it runs and deletes the newer entry, less than ttl after the re-insertion *)
  cache w' !! key = None /\
  pending w' = [mkTimer key ttl0 (now reinserted)] /\
  now w' < now reinserted + ttl0.

(** ** Vocabulary for whole runs *)

(** The event is a call of a public method. *)
Definition is_call (e : Event) : bool :=
  match e with
  | Elapse _ | Fire _ | Write_value _ _ | Write_ttl _ _ => false
  | _ => true
  end.

(** The event is a call of [add] with this key. *)
Definition adds (key : string) (e : Event) : bool :=
  match e with
  | Call_add k _ => bool_decide (k = key)
  | _ => false
  end.

(** The event is a call of [remove]. *)
Definition is_remove (e : Event) : bool :=
  match e with
  | Call_remove _ => true
  | _ => false
  end.

(** The key an event is about: the argument of a writing call, the key of
    the entry the owner writes into, or the key captured by the callback of
    the timer the platform picks. *)
Definition touched (e : Event) (w : World) : option string :=
  match e with
  | Call_add key _ | Call_update key _ | Call_remove key => Some key
  | Write_value key _ | Write_ttl key _ => Some key
  | Fire i => tkey <$> pending w !! i
  | Call_get _ | Call__get _ | Elapse _ => None
  end.

(** After [d] milliseconds the platform runs every timer that is pending in
    [w], oldest first. *)
Definition expire_all (d : N) (w : World) : list Event :=
  Elapse d :: replicate (length (pending w)) (Fire 0).

(** In a run without [remove]: no two pending timers have the same key, and
    every pending timer belongs to the entry now stored under its key. *)
Definition one_timer_each (w : World) (born : gmap string Z) : Prop :=
  NoDup (tkey <$> pending w) /\
  forall t, t ∈ pending w ->
    is_Some (cache w !! tkey t) /\ born !! tkey t = Some (created t).

(** * Properties *)

(** ** Truthiness *)

Lemma truthy_string_true (s : string) : Js.truthy_string s = true <-> s <> "".
Proof.
  unfold Js.truthy_string. rewrite negb_true_iff.
  destruct (String.eqb_spec s ""); split; congruence.
Qed.

Lemma truthy_string_false (s : string) : Js.truthy_string s = false <-> s = "".
Proof.
  unfold Js.truthy_string. rewrite negb_false_iff. apply String.eqb_eq.
Qed.

Lemma null_falsy : Js.truthy Js.Null = false.
Proof. reflexivity. Qed.

(** ** Two runs of the methods *)

Example add_then_get :
  let w := snd (add "a" (Js.Str "x") (new_TTLCache 50 0)) in
  fst (get "a" w) = Return (Js.Str "x") /\
  pending w = [mkTimer "a" 50 0].
Proof. vm_compute. split; reflexivity. Qed.

Example nan_is_rejected :
  fst (add "a" (Js.Number PrimFloat.nan) (new_TTLCache 50 0))
  = Throw "A value is required!".
Proof. vm_compute. reflexivity. Qed.

(** ** The methods, case by case *)

Section MethodEquations.

Context {key : string} {v : Js.value} {w : World}.

Lemma add_empty_key : key = "" -> add key v w = (Throw "A key is required!", w).
Proof. intros ->. reflexivity. Qed.

Lemma add_falsy_value :
  key <> "" -> Js.truthy v = false -> add key v w = (Throw "A value is required!", w).
Proof.
  intros Hk Hv. apply truthy_string_true in Hk.
  unfold add. rewrite Hk, Hv. reflexivity.
Qed.

Lemma add_present :
  key <> "" -> Js.truthy v = true -> is_Some (cache w !! key) ->
  add key v w = (Return true, w).
Proof.
  intros Hk Hv Hp. apply truthy_string_true in Hk.
  unfold add, bind, cache_has. rewrite Hk, Hv. cbn.
  rewrite bool_decide_eq_true_2 by exact Hp. reflexivity.
Qed.

Lemma add_absent :
  key <> "" -> Js.truthy v = true -> cache w !! key = None ->
  add key v w =
  (Return true,
   mkWorld (this_ttl w) (<[key := mkEntry v (this_ttl w)]> (cache w))
           (pending w ++ [mkTimer key (this_ttl w) (now w)]) (now w)).
Proof.
  intros Hk Hv Ha. apply truthy_string_true in Hk.
  unfold add, bind, cache_has. rewrite Hk, Hv. cbn.
  rewrite bool_decide_eq_false_2; [reflexivity |].
  rewrite Ha. intros [? ?]; discriminate.
Qed.

Lemma get_empty_key : key = "" -> get key w = (Throw "A key is required", w).
Proof. intros ->. reflexivity. Qed.

Lemma get_present (e : CacheEntry) :
  key <> "" -> cache w !! key = Some e -> get key w = (Return (value e), w).
Proof.
  intros Hk He. apply truthy_string_true in Hk.
  unfold get, bind, cache_get. rewrite Hk. cbn. rewrite He. reflexivity.
Qed.

Lemma get_absent :
  key <> "" -> cache w !! key = None -> get key w = (Return Js.Null, w).
Proof.
  intros Hk He. apply truthy_string_true in Hk.
  unfold get, bind, cache_get. rewrite Hk. cbn. rewrite He. reflexivity.
Qed.

Lemma _get_empty_key : key = "" -> _get key w = (Throw "A key is required", w).
Proof. intros ->. reflexivity. Qed.

Lemma _get_nonempty_key : key <> "" -> _get key w = (Return (cache w !! key), w).
Proof.
  intros Hk. apply truthy_string_true in Hk.
  unfold _get, bind, cache_get. rewrite Hk. cbn.
  destruct (cache w !! key); reflexivity.
Qed.

Lemma update_empty_key : key = "" -> update key v w = (Throw "A key is required!", w).
Proof. intros ->. reflexivity. Qed.

Lemma update_falsy_value :
  key <> "" -> Js.truthy v = false ->
  update key v w = (Throw "A value is required!", w).
Proof.
  intros Hk Hv. apply truthy_string_true in Hk.
  unfold update. rewrite Hk, Hv. reflexivity.
Qed.

Lemma update_absent :
  key <> "" -> Js.truthy v = true -> cache w !! key = None ->
  update key v w = (Return false, w).
Proof.
  intros Hk Hv Ha. pose proof (_get_nonempty_key Hk) as Hg.
  apply truthy_string_true in Hk.
  unfold update, bind. rewrite Hk, Hv. cbn. rewrite Hg, Ha. reflexivity.
Qed.

Lemma update_present (e : CacheEntry) :
  key <> "" -> Js.truthy v = true -> cache w !! key = Some e ->
  update key v w =
  (Return true,
   mkWorld (this_ttl w) (<[key := mkEntry v (ttl e)]> (cache w)) (pending w) (now w)).
Proof.
  intros Hk Hv Hp. pose proof (_get_nonempty_key Hk) as Hg.
  apply truthy_string_true in Hk.
  unfold update, bind. rewrite Hk, Hv. cbn. rewrite Hg, Hp. reflexivity.
Qed.

Lemma remove_empty_key : key = "" -> remove key w = (Throw "A key is required!", w).
Proof. intros ->. reflexivity. Qed.

Lemma remove_absent :
  key <> "" -> cache w !! key = None -> remove key w = (Return false, w).
Proof.
  intros Hk Ha. apply truthy_string_true in Hk.
  unfold remove, bind, cache_has. rewrite Hk. cbn.
  rewrite bool_decide_eq_false_2; [reflexivity |].
  rewrite Ha. intros [? ?]; discriminate.
Qed.

Lemma remove_present :
  key <> "" -> is_Some (cache w !! key) ->
  remove key w =
  (Return true, mkWorld (this_ttl w) (delete key (cache w)) (pending w) (now w)).
Proof.
  intros Hk Hp. apply truthy_string_true in Hk.
  unfold remove, bind, cache_has, cache_delete. rewrite Hk. cbn.
  rewrite bool_decide_eq_true_2 by exact Hp. cbn.
  rewrite bool_decide_eq_true_2 by exact Hp. reflexivity.
Qed.

End MethodEquations.

(** ** Insertion, lookup, update and removal *)

(** C1: adding a truthy value under a non-empty key that is absent returns
    [true], and a [get] of that key right afterwards returns the value. *)
Theorem add_absent_then_get (key : string) (v : Js.value) (w : World) :
  key <> "" -> Js.truthy v = true -> cache w !! key = None ->
  fst (add key v w) = Return true /\
  fst (get key (snd (add key v w))) = Return v.
Proof.
  intros Hk Hv Ha. rewrite (add_absent Hk Hv Ha). cbn [fst snd]. split; [reflexivity |].
  rewrite (get_present (mkEntry v (this_ttl w)) Hk); [reflexivity |].
  cbn. apply lookup_insert_eq.
Qed.

Lemma add_absent_then_get_witness :
  fst (add "a" (Js.Str "x") (new_TTLCache 50 0)) = Return true /\
  fst (get "a" (snd (add "a" (Js.Str "x") (new_TTLCache 50 0)))) = Return (Js.Str "x").
Proof.
  apply (add_absent_then_get "a" (Js.Str "x") (new_TTLCache 50 0));
    [discriminate | reflexivity | reflexivity].
Defined.

(** C3: adding under a key that is already present returns [true] and changes
    nothing at all: the map, the pending timers and the clock are the same
    world, and [get] still returns the value that was stored. *)
Theorem add_present_changes_nothing
  (key : string) (v : Js.value) (w : World) (e : CacheEntry) :
  key <> "" -> Js.truthy v = true -> cache w !! key = Some e ->
  add key v w = (Return true, w) /\
  get key (snd (add key v w)) = (Return (value e), w).
Proof.
  intros Hk Hv He.
  assert (Hadd : add key v w = (Return true, w)) by (apply add_present; eauto).
  rewrite Hadd. split; [reflexivity |]. cbn [snd]. apply (get_present e); assumption.
Qed.

Lemma add_present_changes_nothing_witness :
  let w := snd (add "a" (Js.Str "x") (new_TTLCache 50 0)) in
  add "a" (Js.Str "y") w = (Return true, w) /\
  get "a" (snd (add "a" (Js.Str "y") w)) = (Return (Js.Str "x"), w).
Proof.
  apply (add_present_changes_nothing "a" (Js.Str "y")
           (snd (add "a" (Js.Str "x") (new_TTLCache 50 0)))
           (mkEntry (Js.Str "x") 50));
    [discriminate | reflexivity | reflexivity].
Defined.

(** C4: [update] on an absent key returns [false] and leaves the world as it
    is; on a present key it returns [true], stores the new value with the
    entry's old [ttl], and touches neither the other keys nor the pending
    timers nor the clock. *)
Theorem update_replaces_only_the_value (key : string) (v : Js.value) (w : World) :
  key <> "" -> Js.truthy v = true ->
  (cache w !! key = None -> update key v w = (Return false, w)) /\
  (forall e, cache w !! key = Some e ->
     let w' := snd (update key v w) in
     fst (update key v w) = Return true /\
     cache w' !! key = Some (mkEntry v (ttl e)) /\
     (forall other, other <> key -> cache w' !! other = cache w !! other) /\
     pending w' = pending w /\ now w' = now w /\ this_ttl w' = this_ttl w).
Proof.
  intros Hk Hv. split.
  - intros Ha. apply update_absent; assumption.
  - intros e He. rewrite (update_present e Hk Hv He). cbn.
    repeat split.
    + apply lookup_insert_eq.
    + intros other Hne. apply lookup_insert_ne. congruence.
Qed.

Lemma update_replaces_only_the_value_witness :
  let w := snd (add "a" (Js.Str "x") (new_TTLCache 50 0)) in
  update "b" (Js.Str "y") w = (Return false, w) /\
  fst (update "a" (Js.Str "y") w) = Return true /\
  cache (snd (update "a" (Js.Str "y") w)) !! "a" = Some (mkEntry (Js.Str "y") 50).
Proof.
  cbv zeta. split.
  - apply (update_replaces_only_the_value "b" (Js.Str "y")
             (snd (add "a" (Js.Str "x") (new_TTLCache 50 0))));
      [discriminate | reflexivity | reflexivity].
  - pose proof (proj2 (update_replaces_only_the_value "a" (Js.Str "y")
             (snd (add "a" (Js.Str "x") (new_TTLCache 50 0)))
             ltac:(discriminate) eq_refl) (mkEntry (Js.Str "x") 50) eq_refl) as H.
    cbv zeta in H. split; [apply H | apply H].
Defined.

(** C5: once [add] has succeeded, [remove] returns [true] and [get] finds
    nothing; a second [remove] returns [false] and changes nothing. *)
Theorem remove_after_add (key : string) (v : Js.value) (w : World) :
  key <> "" -> Js.truthy v = true ->
  let w1 := snd (add key v w) in
  let w2 := snd (remove key w1) in
  fst (add key v w) = Return true /\
  fst (remove key w1) = Return true /\
  fst (get key w2) = Return Js.Null /\
  remove key w2 = (Return false, w2).
Proof.
  intros Hk Hv w1 w2.
  assert (Hadd : fst (add key v w) = Return true /\ is_Some (cache w1 !! key)).
  { subst w1. destruct (cache w !! key) as [e |] eqn:He.
    - rewrite add_present by eauto. cbn. rewrite He. eauto.
    - rewrite (add_absent Hk Hv He). cbn. rewrite lookup_insert_eq. eauto. }
  destruct Hadd as [Hret Hp].
  assert (Hgone : cache w2 !! key = None).
  { subst w2. rewrite (remove_present Hk Hp). cbn. apply lookup_delete_eq. }
  repeat split.
  - exact Hret.
  - rewrite (remove_present Hk Hp). reflexivity.
  - rewrite (get_absent Hk Hgone). reflexivity.
  - apply remove_absent; assumption.
Qed.

Lemma remove_after_add_witness :
  let w1 := snd (add "a" (Js.Str "x") (new_TTLCache 50 0)) in
  let w2 := snd (remove "a" w1) in
  fst (add "a" (Js.Str "x") (new_TTLCache 50 0)) = Return true /\
  fst (remove "a" w1) = Return true /\
  fst (get "a" w2) = Return Js.Null /\
  remove "a" w2 = (Return false, w2).
Proof.
  apply (remove_after_add "a" (Js.Str "x") (new_TTLCache 50 0));
    [discriminate | reflexivity].
Defined.

(** ** Errors *)

Lemma throws_Throw {A} (message : string) : throws (@Throw A message).
Proof. exists message. reflexivity. Qed.

Lemma not_throws_Return {A} (a : A) : ~ throws (Return a).
Proof. intros [message H]. discriminate. Qed.

Lemma throws_exactly_remove (key : string) (w : World) :
  throws (fst (remove key w)) <-> key = "".
Proof.
  split.
  - intros H. destruct (decide (key = "")) as [Hk | Hk]; [exact Hk | exfalso].
    destruct (cache w !! key) as [e |] eqn:He.
    + rewrite remove_present in H by eauto. exact (not_throws_Return _ H).
    + rewrite (remove_absent Hk He) in H. exact (not_throws_Return _ H).
  - intros ->. apply throws_Throw.
Qed.

Ltac settle_outcome :=
  match goal with
  | |- throws (Throw _) => apply throws_Throw
  | H : throws (Return _) |- _ => exfalso; exact (not_throws_Return _ H)
  | H : _ \/ _ |- _ => destruct H; congruence
  | _ => solve [auto | congruence]
  end.

(** C6: the four methods throw exactly when the key is empty or, for [add]
    and [update], the value is falsy.  A miss is not an error: [get]
    returns [null], [update] and [remove] return [false]. *)
Theorem throws_exactly_on_invalid_arguments (key : string) (v : Js.value) (w : World) :
  (throws (fst (add key v w)) <-> key = "" \/ Js.truthy v = false) /\
  (throws (fst (get key w)) <-> key = "") /\
  (throws (fst (update key v w)) <-> key = "" \/ Js.truthy v = false) /\
  (throws (fst (remove key w)) <-> key = "") /\
  (key <> "" -> cache w !! key = None ->
     fst (get key w) = Return Js.Null /\
     fst (remove key w) = Return false /\
     (Js.truthy v = true -> fst (update key v w) = Return false)).
Proof.
  destruct (decide (key = "")) as [-> | Hk].
  { rewrite (add_empty_key eq_refl), (get_empty_key eq_refl),
      (update_empty_key eq_refl), (remove_empty_key eq_refl).
    cbn [fst]. repeat (first [split | intro]); settle_outcome. }
  destruct (cache w !! key) as [e |] eqn:He; destruct (Js.truthy v) eqn:Hv.
  - rewrite add_present, (get_present e), (update_present e), remove_present by eauto.
    cbn [fst]. repeat (first [split | intro]); settle_outcome.
  - rewrite add_falsy_value, (get_present e), update_falsy_value, remove_present by eauto.
    cbn [fst]. repeat (first [split | intro]); settle_outcome.
  - rewrite (add_absent Hk Hv He), (get_absent Hk He), (update_absent Hk Hv He),
      (remove_absent Hk He).
    cbn [fst]. repeat (first [split | intro]); settle_outcome.
  - rewrite (add_falsy_value Hk Hv), (get_absent Hk He), (update_falsy_value Hk Hv),
      (remove_absent Hk He).
    cbn [fst]. repeat (first [split | intro]); settle_outcome.
Qed.

(** ** Reading *)

Lemma get_world (key : string) (w : World) : snd (get key w) = w.
Proof.
  destruct (decide (key = "")) as [-> | Hk]; [reflexivity |].
  destruct (cache w !! key) as [e |] eqn:He.
  - rewrite (get_present e Hk He). reflexivity.
  - rewrite (get_absent Hk He). reflexivity.
Qed.

(** C9: [get] hands back the very world it was given, so a second [get]
    gives the same answer; neither the entries nor the pending timers nor
    the clock are touched. *)
Theorem get_changes_nothing (key : string) (w : World) :
  snd (get key w) = w /\
  get key (snd (get key w)) = get key w.
Proof.
  pose proof (get_world key w) as H.
  split; [exact H | rewrite H; reflexivity].
Qed.

(** ** How each method changes the world *)

Lemma add_world (key : string) (v : Js.value) (w : World) :
  snd (add key v w) = w \/
  (key <> "" /\ Js.truthy v = true /\ cache w !! key = None /\
   snd (add key v w) =
   mkWorld (this_ttl w) (<[key := mkEntry v (this_ttl w)]> (cache w))
           (pending w ++ [mkTimer key (this_ttl w) (now w)]) (now w)).
Proof.
  destruct (decide (key = "")) as [-> | Hk]; [left; reflexivity |].
  destruct (Js.truthy v) eqn:Hv; [| left; rewrite (add_falsy_value Hk Hv); reflexivity].
  destruct (cache w !! key) as [e |] eqn:He.
  - left. rewrite add_present by eauto. reflexivity.
  - right. rewrite (add_absent Hk Hv He). auto.
Qed.

Lemma _get_world (key : string) (w : World) : snd (_get key w) = w.
Proof.
  destruct (decide (key = "")) as [-> | Hk]; [reflexivity |].
  rewrite (_get_nonempty_key Hk). reflexivity.
Qed.

Lemma update_world (key : string) (v : Js.value) (w : World) :
  snd (update key v w) = w \/
  (key <> "" /\ Js.truthy v = true /\
   exists e, cache w !! key = Some e /\
     snd (update key v w) =
     mkWorld (this_ttl w) (<[key := mkEntry v (ttl e)]> (cache w)) (pending w) (now w)).
Proof.
  destruct (decide (key = "")) as [-> | Hk]; [left; reflexivity |].
  destruct (Js.truthy v) eqn:Hv; [| left; rewrite (update_falsy_value Hk Hv); reflexivity].
  destruct (cache w !! key) as [e |] eqn:He.
  - right. rewrite (update_present e Hk Hv He). eauto.
  - left. rewrite (update_absent Hk Hv He). reflexivity.
Qed.

Lemma remove_world (key : string) (w : World) :
  snd (remove key w) = w \/
  (key <> "" /\ is_Some (cache w !! key) /\
   snd (remove key w) =
   mkWorld (this_ttl w) (delete key (cache w)) (pending w) (now w)).
Proof.
  destruct (decide (key = "")) as [-> | Hk]; [left; reflexivity |].
  destruct (cache w !! key) as [e |] eqn:He.
  - right. rewrite remove_present by eauto. eauto.
  - left. rewrite (remove_absent Hk He). reflexivity.
Qed.

(** Whether or not the key is there, the map after [remove] is the map with
    the key deleted, and nothing else moves. *)
Lemma remove_fields (key : string) (w : World) :
  key <> "" ->
  cache (snd (remove key w)) = delete key (cache w) /\
  this_ttl (snd (remove key w)) = this_ttl w /\
  pending (snd (remove key w)) = pending w /\
  now (snd (remove key w)) = now w.
Proof.
  intros Hk. destruct (cache w !! key) as [e |] eqn:He.
  - rewrite remove_present by eauto. cbn. auto.
  - rewrite (remove_absent Hk He). cbn. rewrite delete_id by exact He. auto.
Qed.

Lemma write_value_world (key : string) (v : Js.value) (w : World) :
  snd (write_value key v w) = w \/
  (key <> "" /\
   exists e, cache w !! key = Some e /\
     snd (write_value key v w) =
     mkWorld (this_ttl w) (<[key := mkEntry v (ttl e)]> (cache w)) (pending w) (now w)).
Proof.
  destruct (decide (key = "")) as [-> | Hk]; [left; reflexivity |].
  unfold write_value, bind. rewrite (_get_nonempty_key Hk).
  destruct (cache w !! key) as [e |] eqn:He; [| left; reflexivity].
  right. split; [exact Hk |]. exists e. split; [reflexivity |].
  unfold entry_set_value. rewrite He. reflexivity.
Qed.

Lemma write_ttl_world (key : string) (n : Z) (w : World) :
  snd (write_ttl key n w) = w \/
  (key <> "" /\
   exists e, cache w !! key = Some e /\
     snd (write_ttl key n w) =
     mkWorld (this_ttl w) (<[key := mkEntry (value e) n]> (cache w)) (pending w) (now w)).
Proof.
  destruct (decide (key = "")) as [-> | Hk]; [left; reflexivity |].
  unfold write_ttl, bind. rewrite (_get_nonempty_key Hk).
  destruct (cache w !! key) as [e |] eqn:He; [| left; reflexivity].
  right. split; [exact Hk |]. exists e. split; [reflexivity |].
  unfold entry_set_ttl. rewrite He. reflexivity.
Qed.

(** ** Runs *)

Lemma node_delay_honours (d : Z) : d <= TIMEOUT_MAX -> d <= node_delay d.
Proof. unfold node_delay, TIMEOUT_MAX. intros H. case_match; lia. Qed.

Section Runs.

Variable effective_delay : Z -> Z.


Lemma run_snoc (es : list Event) (e : Event) (w : World) :
  run effective_delay (es ++ [e]) w = exec effective_delay e (run effective_delay es w).
Proof. unfold run. rewrite fold_left_app. reflexivity. Qed.

Lemma run_cons (es : list Event) (e : Event) (w : World) :
  run effective_delay (e :: es) w = run effective_delay es (exec effective_delay e w).
Proof. reflexivity. Qed.

(** A property of worlds that every event preserves holds along every run. *)
Lemma run_preserves (P : World -> Prop) :
  (forall e w, P w -> P (exec effective_delay e w)) ->
  forall es w, P w -> P (run effective_delay es w).
Proof.
  intros Hstep es. induction es as [| e es IH]; intros w Hw; [exact Hw |].
  rewrite run_cons. apply IH, Hstep, Hw.
Qed.

Lemma fire_not_due (i : nat) (w : World) :
  (forall t, pending w !! i = Some t -> due effective_delay t w = false) ->
  fire effective_delay i w = (Return tt, w).
Proof.
  intros H. unfold fire.
  destruct (pending w !! i) as [t |] eqn:Ht; [| reflexivity].
  rewrite (H t eq_refl). reflexivity.
Qed.

Lemma fire_due (i : nat) (t : Timer) (w : World) :
  pending w !! i = Some t -> due effective_delay t w = true ->
  fire effective_delay i w = (dequeue i ;;; callback t) w.
Proof.
  intros Ht Hd. unfold fire. rewrite Ht, Hd. reflexivity.
Qed.

(** The world after a timer with a non-empty key has run. *)
Lemma fire_due_fields (i : nat) (t : Timer) (w : World) :
  pending w !! i = Some t -> due effective_delay t w = true -> tkey t <> "" ->
  fire effective_delay i w =
  (Return tt,
   mkWorld (this_ttl w) (delete (tkey t) (cache w)) (delete i (pending w)) (now w)).
Proof.
  intros Ht Hd Hk. rewrite (fire_due _ _ _ Ht Hd).
  unfold bind, dequeue, callback, bind.
  set (w1 := mkWorld (this_ttl w) (cache w) (delete i (pending w)) (now w)).
  destruct (cache w !! tkey t) as [e |] eqn:He.
  - assert (Hp : is_Some (cache w1 !! tkey t)) by (cbn; eauto).
    rewrite (remove_present Hk Hp). reflexivity.
  - rewrite (remove_absent (w := w1) Hk He). unfold w1. cbn.
    rewrite delete_id by exact He. reflexivity.
Qed.

Lemma fire_world (i : nat) (w : World) :
  snd (fire effective_delay i w) = w \/
  exists t, pending w !! i = Some t /\ due effective_delay t w = true /\
    fire effective_delay i w = (dequeue i ;;; callback t) w.
Proof.
  destruct (pending w !! i) as [t |] eqn:Ht.
  - destruct (due effective_delay t w) eqn:Hd.
    + right. exists t. auto using fire_due.
    + left. rewrite fire_not_due; [reflexivity |].
      intros t' Ht'. rewrite Ht in Ht'. injection Ht' as <-. exact Hd.
  - left. rewrite fire_not_due; [reflexivity |].
    intros t' Ht'. rewrite Ht in Ht'. discriminate.
Qed.

Lemma elem_of_delete_list (i : nat) (t : Timer) (l : list Timer) :
  t ∈ delete i l -> t ∈ l.
Proof.
  intros H. exact (list_subseteq_delete i l t H).
Qed.

Lemma consistent_new (ttl0 t0 : Z) : consistent ttl0 (new_TTLCache ttl0 t0).
Proof.
  split; [reflexivity |]. split.
  - intros key e H. cbn in H. rewrite lookup_empty in H. discriminate.
  - intros t H. cbn in H. apply elem_of_nil in H. contradiction.
Qed.

Lemma consistent_exec (ttl0 : Z) (e : Event) (w : World) :
  consistent ttl0 w -> consistent ttl0 (exec effective_delay e w).
Proof.
  intros Hw. pose proof Hw as (Httl & Hc & Hp).
  assert (Hset : forall key (x : CacheEntry),
            key <> "" ->
            consistent ttl0
              (mkWorld (this_ttl w) (<[key := x]> (cache w)) (pending w) (now w))).
  { intros key x Hk. split; [exact Httl |]. split; cbn; [| exact Hp].
    intros k x'. rewrite lookup_insert. case_decide as Hd.
    - intros _. subst k. exact Hk.
    - apply Hc. }
  destruct e as [key v | key | key | key v | key | d | i | key v | key n]; cbn [exec].
  - destruct (add_world key v w) as [-> | (Hk & Hv & Ha & ->)]; [exact Hw |].
    split; [exact Httl |]. split; cbn.
    + intros k e. rewrite lookup_insert. case_decide as Hd.
      * intros _. subst k. exact Hk.
      * apply Hc.
    + intros t [Hin | Hin%list_elem_of_singleton]%elem_of_app.
      * apply Hp, Hin.
      * subst t. cbn. repeat split; [assumption | assumption | lia].
  - rewrite get_world. exact Hw.
  - rewrite _get_world. exact Hw.
  - destruct (update_world key v w) as [-> | (Hk & Hv & e & He & ->)];
      [exact Hw | apply Hset, Hk].
  - destruct (remove_world key w) as [-> | (Hk & Hs & ->)]; [exact Hw |].
    split; [exact Httl |]. split; cbn; [| exact Hp].
    intros k e. rewrite lookup_delete. case_decide; [discriminate | apply Hc].
  - split; [exact Httl |]. split; cbn; [exact Hc |].
    intros t Hin. destruct (Hp t Hin) as (? & ? & ?). repeat split; [assumption .. | lia].
  - destruct (fire_world i w) as [-> | (t & Ht & Hd & Hf)]; [exact Hw |].
    assert (Hk : tkey t <> "") by (apply (Hp t); eapply list_elem_of_lookup_2; exact Ht).
    rewrite (fire_due_fields _ _ _ Ht Hd Hk).
    split; [exact Httl |]. split; cbn.
    + intros k e. rewrite lookup_delete. case_decide; [discriminate | apply Hc].
    + intros t' Hin. apply Hp. eapply elem_of_delete_list, Hin.
  - destruct (write_value_world key v w) as [-> | (Hk & e & He & ->)];
      [exact Hw | apply Hset, Hk].
  - destruct (write_ttl_world key n w) as [-> | (Hk & e & He & ->)];
      [exact Hw | apply Hset, Hk].
Qed.

Lemma consistent_run (ttl0 t0 : Z) (es : list Event) :
  consistent ttl0 (run effective_delay es (new_TTLCache ttl0 t0)).
Proof. apply run_preserves; [apply consistent_exec | apply consistent_new]. Qed.

(** The methods and the timers keep the fields of the entries as [add] and
    [update] store them; only a write of the owner can change that. *)
Lemma entries_as_stored_exec (ttl0 : Z) (e : Event) (w : World) :
  is_write e = false -> this_ttl w = ttl0 ->
  entries_as_stored ttl0 w -> entries_as_stored ttl0 (exec effective_delay e w).
Proof.
  intros He Httl Hs.
  destruct e as [key v | key | key | key v | key | d | i | key v | key n]; cbn [exec];
    try discriminate He.
  - destruct (add_world key v w) as [-> | (Hk & Hv & Ha & ->)]; [exact Hs |].
    intros k e. cbn. rewrite lookup_insert. case_decide as Hd; [| apply Hs].
    intros [= <-]. cbn. auto.
  - rewrite get_world. exact Hs.
  - rewrite _get_world. exact Hs.
  - destruct (update_world key v w) as [-> | (Hk & Hv & e & Hsome & ->)]; [exact Hs |].
    intros k e'. cbn. rewrite lookup_insert. case_decide as Hd; [| apply Hs].
    intros [= <-]. cbn. split; [exact Hv | apply (Hs key e Hsome)].
  - destruct (remove_world key w) as [-> | (Hk & Hp & ->)]; [exact Hs |].
    intros k e. cbn. rewrite lookup_delete. case_decide; [discriminate | apply Hs].
  - exact Hs.
  - destruct (fire_world i w) as [-> | (t & Ht & Hd & Hf)]; [exact Hs |].
    destruct (decide (tkey t = "")) as [Hk | Hk].
    + rewrite Hf. unfold bind, dequeue, callback, bind.
      rewrite (remove_empty_key Hk). exact Hs.
    + rewrite (fire_due_fields _ _ _ Ht Hd Hk).
      intros k e. cbn. rewrite lookup_delete. case_decide; [discriminate | apply Hs].
Qed.

Lemma entries_as_stored_run (ttl0 : Z) (es : list Event) :
  forall w : World,
    forallb (fun e => negb (is_write e)) es = true ->
    this_ttl w = ttl0 -> entries_as_stored ttl0 w ->
    entries_as_stored ttl0 (run effective_delay es w).
Proof.
  induction es as [| e es IH]; intros w Hes Httl Hs; [exact Hs |].
  cbn [forallb] in Hes. apply andb_prop in Hes as [He Hes]. apply negb_true_iff in He.
  rewrite run_cons. apply IH; [exact Hes | | apply entries_as_stored_exec; assumption].
  destruct e; cbn [exec]; try discriminate He.
  - destruct (add_world key v w) as [-> | (_ & _ & _ & ->)]; exact Httl.
  - rewrite get_world. exact Httl.
  - rewrite _get_world. exact Httl.
  - destruct (update_world key v w) as [-> | (_ & _ & e & _ & ->)]; exact Httl.
  - destruct (remove_world key w) as [-> | (_ & _ & ->)]; exact Httl.
  - exact Httl.
  - destruct (fire_world i w) as [-> | (t & Ht & Hd & Hf)]; [exact Httl |].
    destruct (decide (tkey t = "")) as [Hk | Hk].
    + rewrite Hf. unfold bind, dequeue, callback, bind.
      rewrite (remove_empty_key Hk). exact Httl.
    + rewrite (fire_due_fields _ _ _ Ht Hd Hk). exact Httl.
Qed.

End Runs.

(** ** What holds of every cache that was constructed and then used *)

(** C10, as worded, fails: [_get] is public and returns the stored entry
    itself, so the owner can write [null] and another [ttl] into it.  The key
    is then present, its value is falsy, [get] returns [null] for it and the
    entry's [ttl] is not the constructor's. *)
Lemma owner_write_breaks_stored_fields :
  ~ stored_fields_sound 50
      (run node_delay
         [Call_add "a" (Js.Str "x"); Write_value "a" Js.Null; Write_ttl "a" 999]
         (new_TTLCache 50 0)).
Proof.
  intros [Hs _]. destruct (Hs "a" (mkEntry Js.Null 999)) as [Hv _]; [reflexivity |].
  discriminate Hv.
Qed.

(** C10, amended: after any run from the constructor in which the owner
    never writes into an entry obtained from [_get], every stored value is
    truthy (so it is not [null]) and every entry carries the [ttl] given to
    the constructor; hence [get] of a non-empty key returns [null] exactly
    when the key is absent. *)
Theorem stored_values_are_truthy
  (effective_delay : Z -> Z) (ttl0 t0 : Z) (es : list Event) :
  forallb (fun e => negb (is_write e)) es = true ->
  let w := run effective_delay es (new_TTLCache ttl0 t0) in
  this_ttl w = ttl0 /\
  (forall key e, cache w !! key = Some e ->
     Js.truthy (value e) = true /\ value e <> Js.Null /\ ttl e = ttl0) /\
  (forall key, key <> "" ->
     (fst (get key w) = Return Js.Null <-> cache w !! key = None)).
Proof.
  intros Hes w. destruct (consistent_run effective_delay ttl0 t0 es) as (Httl & _ & _).
  fold w in Httl.
  assert (Hs : entries_as_stored ttl0 w).
  { apply entries_as_stored_run; [exact Hes | reflexivity |].
    intros key e H. cbn in H. rewrite lookup_empty in H. discriminate. }
  assert (Hvalue : forall key e, cache w !! key = Some e ->
            Js.truthy (value e) = true /\ value e <> Js.Null /\ ttl e = ttl0).
  { intros key e He. destruct (Hs key e He) as (Hv & Ht).
    repeat split; [exact Hv | | exact Ht].
    intros Hnull. rewrite Hnull in Hv. discriminate. }
  split; [exact Httl |]. split; [exact Hvalue |].
  intros key Hk. destruct (cache w !! key) as [e |] eqn:He.
  - rewrite (get_present e Hk He). cbn [fst].
    split; [| discriminate]. intros [= Hnull].
    destruct (Hvalue key e He) as (_ & Hne & _). contradiction.
  - rewrite (get_absent Hk He). split; reflexivity.
Qed.

Lemma stored_values_are_truthy_witness :
  let w := run node_delay
             [Call_add "a" (Js.Str "x"); Call__get "a"; Call_update "a" (Js.Str "y");
              Elapse 60; Fire 0; Call_add "b" (Js.Number 1%float)]
             (new_TTLCache 50 0) in
  this_ttl w = 50 /\
  (forall key e, cache w !! key = Some e ->
     Js.truthy (value e) = true /\ value e <> Js.Null /\ ttl e = 50) /\
  (forall key, key <> "" ->
     (fst (get key w) = Return Js.Null <-> cache w !! key = None)).
Proof.
  apply (stored_values_are_truthy node_delay 50 0
           [Call_add "a" (Js.Str "x"); Call__get "a"; Call_update "a" (Js.Str "y");
            Elapse 60; Fire 0; Call_add "b" (Js.Number 1%float)]).
  reflexivity.
Defined.

(** ** Expiry *)

(** C7: when the platform runs a pending timer of a cache that was
    constructed and then used, the callback does not throw, and the store is
    left exactly as [remove] of the timer's key would leave it: the key is
    deleted if present, nothing happens if it is absent, whichever entry
    occupies the key.  The only other change is that the timer has left the
    queue. *)
Theorem expiry_is_remove
  (effective_delay : Z -> Z) (ttl0 t0 : Z) (es : list Event) (i : nat) (t : Timer) :
  let w := run effective_delay es (new_TTLCache ttl0 t0) in
  pending w !! i = Some t -> due effective_delay t w = true ->
  let fired := snd (fire effective_delay i w) in
  let removed := snd (remove (tkey t) w) in
  fst (fire effective_delay i w) = Return tt /\
  ~ throws (fst (remove (tkey t) w)) /\
  cache fired = cache removed /\
  this_ttl fired = this_ttl removed /\
  now fired = now removed /\
  pending fired = delete i (pending removed) /\
  cache fired = delete (tkey t) (cache w) /\
  (cache w !! tkey t = None -> cache fired = cache w).
Proof.
  intros w Ht Hd fired removed.
  destruct (consistent_run effective_delay ttl0 t0 es) as (_ & _ & Hp). fold w in Hp.
  assert (Hk : tkey t <> "") by (apply (Hp t); eapply list_elem_of_lookup_2; exact Ht).
  destruct (remove_fields (tkey t) w Hk) as (Hrc & Hrt & Hrp & Hrn). fold removed in Hrc, Hrt, Hrp, Hrn.
  subst fired. rewrite (fire_due_fields _ _ _ _ Ht Hd Hk). cbn [fst snd cache this_ttl now pending].
  rewrite Hrc, Hrt, Hrp, Hrn.
  repeat split.
  - intros Hthrow.
    destruct (throws_exactly_remove (tkey t) w) as [Hthrows _].
    apply Hk, Hthrows, Hthrow.
  - intros Ha. apply delete_id, Ha.
Qed.

Lemma expiry_is_remove_witness :
  let w := run node_delay [Call_add "a" (Js.Str "x"); Elapse 50] (new_TTLCache 50 0) in
  let fired := snd (fire node_delay 0 w) in
  let removed := snd (remove "a" w) in
  fst (fire node_delay 0 w) = Return tt /\
  ~ throws (fst (remove "a" w)) /\
  cache fired = cache removed /\
  this_ttl fired = this_ttl removed /\
  now fired = now removed /\
  pending fired = delete 0%nat (pending removed) /\
  cache fired = delete "a" (cache w) /\
  (cache w !! "a" = None -> cache fired = cache w).
Proof.
  apply (expiry_is_remove node_delay 50 0 [Call_add "a" (Js.Str "x"); Elapse 50]
           0%nat (mkTimer "a" 50 0)); reflexivity.
Defined.

(** ** Pending removals *)

Example insertion_is_stamped :
  insertion_times node_delay
    [Call_add "a" (Js.Str "x"); Elapse 7; Call_add "b" (Js.Str "y");
     Call_update "a" (Js.Str "z"); Call_add "a" (Js.Str "u")]
    (new_TTLCache 50 0) ∅
  = <["a" := 0]> (<["b" := 7]> ∅).
Proof. vm_compute. reflexivity. Qed.

(** C2, as worded, fails: [remove] leaves the timer of the entry it deletes
    in the queue, so after a key is added, removed and added again, two
    removals are pending for it. *)
Lemma two_timers_after_reinsertion :
  ~ exactly_one_timer_per_key
      (run node_delay
         [Call_add "a" (Js.Str "x"); Call_remove "a"; Call_add "a" (Js.Str "y")]
         (new_TTLCache 50 0)).
Proof.
  intros H. specialize (H "a").
  assert (Hp : is_Some
            (cache (run node_delay
               [Call_add "a" (Js.Str "x"); Call_remove "a"; Call_add "a" (Js.Str "y")]
               (new_TTLCache 50 0)) !! "a")).
  { vm_compute. eauto. }
  specialize (H Hp). vm_compute in H. discriminate.
Qed.

Lemma stamp_lookup (w w' : World) (born : gmap string Z) (key : string) :
  stamp w w' born !! key =
  match cache w' !! key, cache w !! key with
  | Some _, None => Some (now w)
  | _, _ => born !! key
  end.
Proof.
  unfold stamp. rewrite lookup_union, lookup_fmap, lookup_difference.
  destruct (cache w' !! key), (cache w !! key); cbn;
    destruct (born !! key); reflexivity.
Qed.

Lemma elem_of_delete_other (i : nat) (t x : Timer) (l : list Timer) :
  l !! i = Some t -> x <> t -> x ∈ l -> x ∈ delete i l.
Proof.
  intros Hi Hne [j Hj]%list_elem_of_lookup_1.
  assert (Hij : j <> i) by (intros ->; congruence).
  destruct (decide (j < i)%nat) as [Hlt | Hge].
  - apply (list_elem_of_lookup_2 _ j). rewrite list_lookup_delete_lt by exact Hlt. exact Hj.
  - destruct j as [| j']; [lia |].
    apply (list_elem_of_lookup_2 _ j'). rewrite list_lookup_delete_ge by lia. exact Hj.
Qed.

Lemma timers_for_positive (key : string) (t : Timer) (w : World) :
  t ∈ pending w -> tkey t = key -> (1 <= timers_for key w)%nat.
Proof.
  intros Hin Hk. unfold timers_for.
  assert (Hf : t ∈ filter (fun t => tkey t = key) (pending w))
    by (apply list_elem_of_filter; auto).
  destruct (filter (fun t => tkey t = key) (pending w)); [| cbn; lia].
  apply elem_of_nil in Hf. contradiction.
Qed.

(** Why the timing below is stated for a platform that waits at least the
    delay it is asked for: Node replaces a delay above [TIMEOUT_MAX] by one
    millisecond, so with such a [ttl] the entry is gone after 1 ms. *)
Example node_shortens_a_delay_above_TIMEOUT_MAX :
  let w := run node_delay [Call_add "a" (Js.Str "x"); Elapse 1; Fire 0]
               (new_TTLCache (TIMEOUT_MAX + 1) 0) in
  cache w !! "a" = None /\ now w = 1.
Proof. vm_compute. split; reflexivity. Qed.

Section OwnTimer.

Variable effective_delay : Z -> Z.

Lemma own_timer_exec (ttl0 : Z) (e : Event) (w : World) (born : gmap string Z) :
  consistent ttl0 w -> own_timer_pending w born ->
  own_timer_pending (exec effective_delay e w)
                    (stamp w (exec effective_delay e w) born).
Proof.
  intros Hw Hown.
  assert (Hsame : forall w', cache w' = cache w -> this_ttl w' = this_ttl w ->
            pending w' = pending w -> own_timer_pending w' (stamp w w' born)).
  { intros w' Hc Ht Hp key Hs. rewrite stamp_lookup, Ht, Hp.
    rewrite Hc in Hs |- *. destruct Hs as [e' He']. rewrite He'.
    apply Hown. rewrite He'. eauto. }
  assert (Hreplace : forall key (x e : CacheEntry),
            cache w !! key = Some e ->
            let w' := mkWorld (this_ttl w) (<[key := x]> (cache w)) (pending w) (now w) in
            own_timer_pending w' (stamp w w' born)).
  { intros key x e0 He w' k Hs. rewrite stamp_lookup. cbn in Hs |- *.
    destruct (decide (k = key)) as [-> | Hne].
    - rewrite lookup_insert_eq, He. apply Hown. rewrite He. eauto.
    - rewrite lookup_insert_ne in Hs |- * by congruence.
      destruct Hs as [e' He']. rewrite He'. apply Hown. rewrite He'. eauto. }
  destruct e as [key v | key | key | key v | key | d | i | key v | key n]; cbn [exec].
  - destruct (add_world key v w) as [-> | (Hk & Hv & Ha & ->)]; [apply Hsame; reflexivity |].
    intros k Hs. rewrite stamp_lookup. cbn in Hs |- *.
    destruct (decide (k = key)) as [-> | Hne].
    + rewrite lookup_insert_eq, Ha. exists (now w). split; [reflexivity |].
      apply elem_of_app. right. apply list_elem_of_singleton. reflexivity.
    + rewrite lookup_insert_ne in Hs |- * by congruence.
      destruct Hs as [e' He']. rewrite He'.
      destruct (Hown k) as (b & Hb & Hin); [rewrite He'; eauto |].
      exists b. split; [exact Hb |]. apply elem_of_app. left. exact Hin.
  - rewrite get_world. apply Hsame; reflexivity.
  - rewrite _get_world. apply Hsame; reflexivity.
  - destruct (update_world key v w) as [-> | (Hk & Hv & e & He & ->)];
      [apply Hsame; reflexivity | apply (Hreplace key _ e He)].
  - destruct (remove_world key w) as [-> | (Hk & Hp & ->)]; [apply Hsame; reflexivity |].
    intros k Hs. rewrite stamp_lookup. cbn in Hs |- *.
    rewrite lookup_delete in Hs |- *. case_decide as Hd; [destruct Hs; discriminate |].
    destruct Hs as [e' He']. rewrite He'. apply Hown. rewrite He'. eauto.
  - apply Hsame; reflexivity.
  - destruct (fire_world effective_delay i w) as [-> | (t & Ht & Hd & _)];
      [apply Hsame; reflexivity |].
    destruct Hw as (_ & _ & Hpend).
    assert (Hk : tkey t <> "") by (apply (Hpend t); eapply list_elem_of_lookup_2; exact Ht).
    rewrite (fire_due_fields _ _ _ _ Ht Hd Hk).
    intros k Hs. rewrite stamp_lookup. cbn in Hs |- *.
    rewrite lookup_delete in Hs |- *. case_decide as Hne; [destruct Hs; discriminate |].
    destruct Hs as [e' He']. rewrite He'.
    destruct (Hown k) as (b & Hb & Hin); [rewrite He'; eauto |].
    exists b. split; [exact Hb |].
    apply (elem_of_delete_other _ t); [exact Ht | | exact Hin].
    intros <-. apply Hne. reflexivity.
  - destruct (write_value_world key v w) as [-> | (Hk & e & He & ->)];
      [apply Hsame; reflexivity | apply (Hreplace key _ e He)].
  - destruct (write_ttl_world key n w) as [-> | (Hk & e & He & ->)];
      [apply Hsame; reflexivity | apply (Hreplace key _ e He)].
Qed.

Lemma own_timer_run (ttl0 : Z) (es : list Event) :
  forall (w : World) (born : gmap string Z),
    consistent ttl0 w -> own_timer_pending w born ->
    own_timer_pending (run effective_delay es w)
                      (insertion_times effective_delay es w born).
Proof.
  induction es as [| e es IH]; intros w born Hw Hown; [exact Hown |].
  rewrite run_cons. cbn [insertion_times].
  apply IH; [apply consistent_exec, Hw | apply (own_timer_exec ttl0), Hown; exact Hw].
Qed.

(** A timer in the queue changes the world when the platform picks it only
    if it is due. *)
Lemma fire_changes_only_when_due (i : nat) (t : Timer) (w : World) :
  pending w !! i = Some t -> exec effective_delay (Fire i) w <> w ->
  created t + effective_delay (requested t) <= now w.
Proof.
  intros Ht Hchanged. cbn [exec] in Hchanged.
  destruct (due effective_delay t w) eqn:Hd.
  - unfold due in Hd. lia.
  - exfalso. apply Hchanged. rewrite fire_not_due; [reflexivity |].
    intros t' Ht'. rewrite Ht in Ht'. injection Ht' as <-. exact Hd.
Qed.

End OwnTimer.

Lemma timers_for_delete (key : string) (l : list Timer) :
  forall (i : nat) (t : Timer),
    l !! i = Some t ->
    length (filter (fun t => tkey t = key) l) =
    (length (filter (fun t => tkey t = key) (delete i l)) +
     (if decide (tkey t = key) then 1 else 0))%nat.
Proof.
  induction l as [| x l IH]; intros i t Hi; [discriminate |].
  destruct i as [| i]; cbn in Hi.
  - injection Hi as ->. cbn [delete list_delete].
    rewrite filter_cons. destruct (decide (tkey t = key)); cbn; lia.
  - cbn [delete list_delete]. rewrite !filter_cons.
    destruct (decide (tkey x = key)); cbn [length].
    + rewrite Nat.add_succ_l. f_equal. apply IH, Hi.
    + apply IH, Hi.
Qed.

Lemma removals_snoc (key : string) (es : list Event) (e : Event) :
  removals key (es ++ [e]) =
  (removals key es + (if removes key e then 1 else 0))%nat.
Proof.
  unfold removals. rewrite filter_app, length_app. f_equal.
  rewrite filter_cons, filter_nil. destruct (removes key e); reflexivity.
Qed.

Section TimerCount.

Variable effective_delay : Z -> Z.

(** A timer for a key beyond the one of the present entry is there only
    because [remove] was called for that key. *)
Lemma timers_bound_exec (ttl0 : Z) (e : Event) (w : World) (key : string) (r : nat) :
  consistent ttl0 w ->
  (timers_for key w <= occupied key w + r)%nat ->
  (timers_for key (exec effective_delay e w)
   <= occupied key (exec effective_delay e w) + r + (if removes key e then 1 else 0))%nat.
Proof.
  intros Hw Hb.
  assert (Hreplace : forall k (x old : CacheEntry),
            cache w !! k = Some old ->
            (timers_for key
               (mkWorld (this_ttl w) (<[k := x]> (cache w)) (pending w) (now w))
             <= occupied key
                  (mkWorld (this_ttl w) (<[k := x]> (cache w)) (pending w) (now w)) + r)%nat).
  { intros k x old Hold. unfold timers_for, occupied in *. cbn.
    rewrite lookup_insert. case_decide as Hd; [| exact Hb].
    subst k. rewrite Hold in Hb. exact Hb. }
  destruct e as [k v | k | k | k v | k | d | i | k v | k n]; cbn [exec removes].
  - destruct (add_world k v w) as [-> | (Hk & Hv & Ha & ->)]; [lia |].
    unfold timers_for, occupied in *. cbn.
    rewrite filter_app, length_app, filter_cons, filter_nil, lookup_insert. cbn.
    destruct (decide (k = key)) as [-> | Hne]; cbn.
    + rewrite Ha in Hb. lia.
    + lia.
  - rewrite get_world. lia.
  - rewrite _get_world. lia.
  - destruct (update_world k v w) as [-> | (Hk & Hv & e & He & ->)]; [lia |].
    pose proof (Hreplace k (mkEntry v (ttl e)) e He). lia.
  - destruct (remove_world k w) as [-> | (Hk & [e He] & ->)];
      [destruct (bool_decide (k = key)); lia |].
    unfold timers_for, occupied in *. cbn. rewrite lookup_delete.
    destruct (decide (k = key)) as [-> | Hne].
    + rewrite bool_decide_eq_true_2 by reflexivity. rewrite He in Hb. lia.
    + rewrite bool_decide_eq_false_2 by exact Hne. lia.
  - unfold timers_for, occupied in *. cbn. lia.
  - destruct (fire_world effective_delay i w) as [-> | (t & Ht & Hd & _)]; [lia |].
    destruct Hw as (_ & _ & Hpend).
    assert (Hk : tkey t <> "") by (apply (Hpend t); eapply list_elem_of_lookup_2; exact Ht).
    rewrite (fire_due_fields _ _ _ _ Ht Hd Hk).
    unfold timers_for, occupied in *. cbn.
    rewrite (timers_for_delete key (pending w) i t Ht) in Hb.
    rewrite lookup_delete.
    destruct (decide (tkey t = key)) as [Heq | Hne]; [| lia].
    destruct (cache w !! key); lia.
  - destruct (write_value_world k v w) as [-> | (Hk & e & He & ->)]; [lia |].
    pose proof (Hreplace k (mkEntry v (ttl e)) e He). lia.
  - destruct (write_ttl_world k n w) as [-> | (Hk & e & He & ->)]; [lia |].
    pose proof (Hreplace k (mkEntry (value e) n) e He). lia.
Qed.

Lemma timers_bound_run (ttl0 t0 : Z) (es : list Event) (key : string) :
  (timers_for key (run effective_delay es (new_TTLCache ttl0 t0))
   <= occupied key (run effective_delay es (new_TTLCache ttl0 t0)) + removals key es)%nat.
Proof.
  induction es as [| e es IH] using rev_ind; [cbn; lia |].
  rewrite run_snoc, removals_snoc.
  pose proof (timers_bound_exec ttl0 e _ key _ (consistent_run effective_delay ttl0 t0 es) IH).
  lia.
Qed.

End TimerCount.

(** C2, amended: after any run from the constructor every present key has at
    least one pending removal, and no more than one plus the number of times
    [remove] was called for that key (so exactly one as long as it was never
    removed by hand).  Among them is the one created when the key was last
    inserted, and that one does not take effect before the platform's
    effective delay for [ttl] has passed since the insertion, hence not
    before [ttl] on a platform that waits at least what it is asked for. *)
Theorem present_key_has_its_timer
  (effective_delay : Z -> Z) (ttl0 t0 : Z) (es : list Event) (key : string) :
  let w := run effective_delay es (new_TTLCache ttl0 t0) in
  let born := insertion_times effective_delay es (new_TTLCache ttl0 t0) ∅ in
  is_Some (cache w !! key) ->
  (1 <= timers_for key w <= 1 + removals key es)%nat /\
  exists b,
    born !! key = Some b /\
    mkTimer key ttl0 b ∈ pending w /\
    (forall i, pending w !! i = Some (mkTimer key ttl0 b) ->
       exec effective_delay (Fire i) w <> w ->
       b + effective_delay ttl0 <= now w /\
       (ttl0 <= effective_delay ttl0 -> b + ttl0 <= now w)).
Proof.
  intros w born Hs.
  assert (Hown : own_timer_pending w born).
  { apply (own_timer_run effective_delay ttl0); [apply consistent_new |].
    intros k Hk. cbn in Hk. rewrite lookup_empty in Hk. destruct Hk; discriminate. }
  destruct (consistent_run effective_delay ttl0 t0 es) as (Httl & _ & _). fold w in Httl.
  destruct (Hown key Hs) as (b & Hb & Hin). rewrite Httl in Hin.
  split.
  - pose proof (timers_for_positive key (mkTimer key ttl0 b) w Hin eq_refl) as Hge.
    pose proof (timers_bound_run effective_delay ttl0 t0 es key) as Hle. fold w in Hle.
    unfold occupied in Hle. destruct Hs as [e He]. rewrite He in Hle. lia.
  - exists b. split; [exact Hb |]. split; [exact Hin |].
    intros i Hi Hchanged.
    pose proof (fire_changes_only_when_due effective_delay i _ w Hi Hchanged) as Hdue.
    cbn in Hdue. split; [exact Hdue | lia].
Qed.

Lemma present_key_has_its_timer_witness :
  let es := [Call_add "a" (Js.Str "x"); Elapse 10; Call_remove "a"; Elapse 10;
             Call_add "a" (Js.Str "y"); Elapse 50] in
  let w := run node_delay es (new_TTLCache 50 0) in
  let born := insertion_times node_delay es (new_TTLCache 50 0) ∅ in
  (1 <= timers_for "a" w <= 1 + removals "a" es)%nat /\
  exists b,
    born !! "a" = Some b /\
    mkTimer "a" 50 b ∈ pending w /\
    (forall i, pending w !! i = Some (mkTimer "a" 50 b) ->
       exec node_delay (Fire i) w <> w ->
       b + node_delay 50 <= now w /\
       (50 <= node_delay 50 -> b + 50 <= now w)).
Proof.
  apply (present_key_has_its_timer node_delay 50 0
           [Call_add "a" (Js.Str "x"); Elapse 10; Call_remove "a"; Elapse 10;
            Call_add "a" (Js.Str "y"); Elapse 50] "a").
  vm_compute. eauto.
Defined.

(** The gap does not depend on the particular instants: it opens whenever the
    key is added again within the first [ttl] and the platform picks the
    first timer once it is due. *)
Lemma stale_timer_scenario_node
  (ttl0 : Z) (key : string) (v1 v2 : Js.value) (d1 d2 d3 : N) :
  key <> "" -> Js.truthy v1 = true -> Js.truthy v2 = true ->
  ttl0 <= TIMEOUT_MAX ->
  Z.of_N d1 + Z.of_N d2 < ttl0 ->
  ttl0 <= Z.of_N d1 + Z.of_N d2 + Z.of_N d3 ->
  Z.of_N d3 < ttl0 ->
  stale_timer_scenario node_delay ttl0 key v1 v2 d1 d2 d3.
Proof.
  intros Hk Hv1 Hv2 Hmax Hwithin Hdue Hearly.
  assert (Hdelay : node_delay ttl0 = ttl0).
  { unfold node_delay. rewrite andb_true_intro; [reflexivity |].
    split; apply Z.leb_le; lia. }
  set (T1 := mkTimer key ttl0 0).
  set (T2 := mkTimer key ttl0 (0 + Z.of_N d1 + Z.of_N d2)).
  set (W1 := mkWorld ttl0 (<[key := mkEntry v1 ttl0]> ∅) [T1] 0).
  set (W2 := mkWorld ttl0 ∅ [T1] (0 + Z.of_N d1)).
  set (W3 := mkWorld ttl0 (<[key := mkEntry v2 ttl0]> ∅) [T1; T2]
                     (0 + Z.of_N d1 + Z.of_N d2)).
  set (W4 := mkWorld ttl0 ∅ [T2] (0 + Z.of_N d1 + Z.of_N d2 + Z.of_N d3)).
  assert (E1 : exec node_delay (Call_add key v1) (new_TTLCache ttl0 0) = W1).
  { cbn [exec]. rewrite (add_absent Hk Hv1); [reflexivity | apply lookup_empty]. }
  assert (E2 : run node_delay [Elapse d1; Call_remove key] W1 = W2).
  { cbn [run fold_left exec].
    rewrite remove_present; [| exact Hk | cbn; rewrite lookup_insert_eq; eauto].
    cbn. rewrite delete_insert_eq, delete_empty. reflexivity. }
  assert (E3 : run node_delay [Elapse d2; Call_add key v2] W2 = W3).
  { cbn [run fold_left exec].
    rewrite (add_absent Hk Hv2); [reflexivity | apply lookup_empty]. }
  assert (E4 : exec node_delay (Fire 0) (elapse d3 W3) = W4).
  { cbn [exec]. rewrite (fire_due_fields node_delay 0 T1); [| reflexivity | | exact Hk].
    - cbn. rewrite delete_insert_eq, delete_empty. reflexivity.
    - unfold due. cbn. rewrite Hdelay. apply Z.leb_le. lia. }
  unfold stale_timer_scenario. cbv zeta. rewrite !E1, !E2, !E3, !E4.
  cbn [elapse W1 W2 W3 W4 this_ttl cache pending now].
  repeat split; try apply lookup_insert_eq; try apply lookup_empty; lia.
Qed.

(** C8: there is an execution in which a key is added, removed by hand and
    added again within one [ttl], and the timer of the first insertion, still
    pending, then deletes the newer entry before [ttl] has passed since the
    re-insertion. *)
Theorem stale_timer_deletes_newer_entry :
  exists (ttl0 : Z) (key : string) (v1 v2 : Js.value) (d1 d2 d3 : N),
    stale_timer_scenario node_delay ttl0 key v1 v2 d1 d2 d3.
Proof.
  exists 50, "a", (Js.Str "x"), (Js.Str "y"), 10%N, 10%N, 30%N.
  apply stale_timer_scenario_node;
    [discriminate | reflexivity | reflexivity | unfold TIMEOUT_MAX; lia | lia ..].
Qed.

(** * Further properties of the class *)

(** ** The raw entry and the value *)


(** X2: after any run from the constructor in which the owner never writes
    into an entry obtained from [_get], the entry that [_get] returns for a
    present key has the constructor's [ttl] and a truthy [value], which is
    what [get] returns. *)
Theorem _get_reports_the_constructor_ttl
  (effective_delay : Z -> Z) (ttl0 t0 : Z) (es : list Event) (key : string)
  (entry : CacheEntry) :
  forallb (fun e => negb (is_write e)) es = true ->
  let w := run effective_delay es (new_TTLCache ttl0 t0) in
  fst (_get key w) = Return (Some entry) ->
  ttl entry = ttl0 /\
  Js.truthy (value entry) = true /\
  fst (get key w) = Return (value entry) /\
  key <> "".
Proof.
  intros Hes w H.
  destruct (decide (key = "")) as [-> | Hk]; [discriminate |].
  rewrite (_get_nonempty_key Hk) in H. injection H as He.
  assert (Hs : entries_as_stored ttl0 w).
  { apply entries_as_stored_run; [exact Hes | reflexivity |].
    intros k e Hke. cbn in Hke. rewrite lookup_empty in Hke. discriminate. }
  destruct (Hs key entry He) as (Hv & Ht).
  rewrite (get_present entry Hk He). auto.
Qed.

Lemma _get_reports_the_constructor_ttl_witness :
  let w := run node_delay [Call_add "a" (Js.Str "x"); Elapse 5;
                           Call_update "a" (Js.Str "y")] (new_TTLCache 50 0) in
  ttl (mkEntry (Js.Str "y") 50) = 50 /\
  Js.truthy (value (mkEntry (Js.Str "y") 50)) = true /\
  fst (get "a" w) = Return (value (mkEntry (Js.Str "y") 50)) /\
  "a" <> "".
Proof.
  apply (_get_reports_the_constructor_ttl node_delay 50 0
           [Call_add "a" (Js.Str "x"); Elapse 5; Call_update "a" (Js.Str "y")]
           "a" (mkEntry (Js.Str "y") 50)).
  - reflexivity.
  - reflexivity.
Defined.

(** ** Which error, and what it leaves behind *)

(** X3: the key is checked before the value, so an empty key is reported as
    a missing key even when the value is falsy too; [get] and [_get] word the
    message without the exclamation mark.  A call that throws has changed
    nothing. *)
Theorem error_messages (key : string) (v : Js.value) (w : World) :
  (key = "" ->
     add key v w = (Throw "A key is required!", w) /\
     update key v w = (Throw "A key is required!", w) /\
     remove key w = (Throw "A key is required!", w) /\
     get key w = (Throw "A key is required", w) /\
     _get key w = (Throw "A key is required", w)) /\
  (key <> "" -> Js.truthy v = false ->
     add key v w = (Throw "A value is required!", w) /\
     update key v w = (Throw "A value is required!", w)) /\
  (forall message,
     (fst (add key v w) = Throw message -> snd (add key v w) = w) /\
     (fst (update key v w) = Throw message -> snd (update key v w) = w) /\
     (fst (remove key w) = Throw message -> snd (remove key w) = w)).
Proof.
  split; [| split].
  - intros ->. repeat split.
  - intros Hk Hv. rewrite (add_falsy_value Hk Hv), (update_falsy_value Hk Hv). auto.
  - intros message. repeat split; intros H.
    + destruct (add_world key v w) as [Hw | (Hk & Hv & Ha & _)]; [exact Hw |].
      rewrite (add_absent Hk Hv Ha) in H. discriminate.
    + destruct (update_world key v w) as [Hw | (Hk & Hv & e & He & _)]; [exact Hw |].
      rewrite (update_present e Hk Hv He) in H. discriminate.
    + destruct (remove_world key w) as [Hw | (Hk & Hp & _)]; [exact Hw |].
      rewrite (remove_present Hk Hp) in H. discriminate.
Qed.

(** ** How calls compose *)

(** X4: of two updates of a key the last one wins: updating with [v1] and
    then with a truthy [v2] leaves the same world as updating with [v2]
    alone, and if the key is present [get] then returns [v2] and [_get] shows
    the entry's original [ttl]. *)
Theorem update_last_write_wins (key : string) (v1 v2 : Js.value) (w : World) :
  Js.truthy v2 = true ->
  let w1 := snd (update key v1 w) in
  let w2 := snd (update key v2 w1) in
  w2 = snd (update key v2 w) /\
  (forall e, key <> "" -> cache w !! key = Some e ->
     fst (get key w2) = Return v2 /\
     fst (_get key w2) = Return (Some (mkEntry v2 (ttl e)))).
Proof.
  intros Hv2 w1 w2.
  assert (Heq : w2 = snd (update key v2 w)).
  { subst w2 w1.
    destruct (update_world key v1 w) as [-> | (Hk & Hv1 & e & He & ->)]; [reflexivity |].
    rewrite (update_present e Hk Hv2 He).
    rewrite (update_present (mkEntry v1 (ttl e)) Hk Hv2); [| cbn; apply lookup_insert_eq].
    cbn. rewrite insert_insert_eq. reflexivity. }
  split; [exact Heq |].
  intros e Hk He. rewrite Heq, (update_present e Hk Hv2 He). cbn [snd].
  rewrite (get_present (mkEntry v2 (ttl e)) Hk), (_get_nonempty_key Hk);
    cbn; rewrite ?lookup_insert_eq; auto.
Qed.

Lemma update_last_write_wins_witness :
  let w := snd (add "a" (Js.Str "x") (new_TTLCache 50 0)) in
  let w1 := snd (update "a" (Js.Str "y") w) in
  let w2 := snd (update "a" (Js.Str "z") w1) in
  w2 = snd (update "a" (Js.Str "z") w) /\
  (forall e, "a" <> "" -> cache w !! "a" = Some e ->
     fst (get "a" w2) = Return (Js.Str "z") /\
     fst (_get "a" w2) = Return (Some (mkEntry (Js.Str "z") (ttl e)))).
Proof.
  apply (update_last_write_wins "a" (Js.Str "y") (Js.Str "z")
           (snd (add "a" (Js.Str "x") (new_TTLCache 50 0)))).
  reflexivity.
Defined.

(** X5: of two adds of an absent key the first one wins: the second returns
    [true] and changes nothing, [get] returns the first value, and the two
    calls together have scheduled one timer. *)
Theorem add_first_write_wins (key : string) (v1 v2 : Js.value) (w : World) :
  key <> "" -> Js.truthy v1 = true -> Js.truthy v2 = true ->
  cache w !! key = None ->
  let w1 := snd (add key v1 w) in
  add key v2 w1 = (Return true, w1) /\
  fst (get key w1) = Return v1 /\
  fst (_get key w1) = Return (Some (mkEntry v1 (this_ttl w))) /\
  pending (snd (add key v2 w1)) = (pending w ++ [mkTimer key (this_ttl w) (now w)])%list.
Proof.
  intros Hk Hv1 Hv2 Ha w1. subst w1. rewrite (add_absent Hk Hv1 Ha). cbn [snd].
  set (w1 := mkWorld _ _ _ _).
  assert (He : cache w1 !! key = Some (mkEntry v1 (this_ttl w)))
    by (cbn; apply lookup_insert_eq).
  assert (Hadd : add key v2 w1 = (Return true, w1))
    by (apply add_present; [exact Hk | exact Hv2 | rewrite He; eauto]).
  rewrite Hadd, (get_present _ Hk He), (_get_nonempty_key Hk), He. auto.
Qed.

Lemma add_first_write_wins_witness :
  let w := new_TTLCache 50 0 in
  let w1 := snd (add "a" (Js.Str "x") w) in
  add "a" (Js.Str "y") w1 = (Return true, w1) /\
  fst (get "a" w1) = Return (Js.Str "x") /\
  fst (_get "a" w1) = Return (Some (mkEntry (Js.Str "x") (this_ttl w))) /\
  pending (snd (add "a" (Js.Str "y") w1)) = (pending w ++ [mkTimer "a" (this_ttl w) (now w)])%list.
Proof.
  apply (add_first_write_wins "a" (Js.Str "x") (Js.Str "y") (new_TTLCache 50 0));
    [discriminate | reflexivity | reflexivity | reflexivity].
Defined.

(** X6: [remove] followed by [add] replaces whatever was stored under the
    key: the new value is returned by [get], the entry carries the store's
    [ttl], and exactly one timer is appended while none of the pending ones
    is taken away. *)
Theorem remove_then_add_replaces (key : string) (v : Js.value) (w : World) :
  key <> "" -> Js.truthy v = true ->
  let w1 := snd (remove key w) in
  let w2 := snd (add key v w1) in
  fst (add key v w1) = Return true /\
  fst (get key w2) = Return v /\
  cache w2 = <[key := mkEntry v (this_ttl w)]> (cache w) /\
  pending w2 = (pending w ++ [mkTimer key (this_ttl w) (now w)])%list /\
  now w2 = now w /\ this_ttl w2 = this_ttl w.
Proof.
  intros Hk Hv w1 w2.
  destruct (remove_fields key w Hk) as (Hc & Ht & Hp & Hn). fold w1 in Hc, Ht, Hp, Hn.
  assert (Ha : cache w1 !! key = None) by (rewrite Hc; apply lookup_delete_eq).
  subst w2. rewrite (add_absent Hk Hv Ha). cbn [fst snd cache pending now this_ttl].
  rewrite (get_present (mkEntry v (this_ttl w1)) Hk); [| cbn; apply lookup_insert_eq].
  rewrite Hc, Ht, Hp, Hn, insert_delete_eq. repeat split.
Qed.

Lemma remove_then_add_replaces_witness :
  let w := snd (add "a" (Js.Str "x") (new_TTLCache 50 0)) in
  let w1 := snd (remove "a" w) in
  let w2 := snd (add "a" (Js.Str "y") w1) in
  fst (add "a" (Js.Str "y") w1) = Return true /\
  fst (get "a" w2) = Return (Js.Str "y") /\
  cache w2 = <["a" := mkEntry (Js.Str "y") (this_ttl w)]> (cache w) /\
  pending w2 = (pending w ++ [mkTimer "a" (this_ttl w) (now w)])%list /\
  now w2 = now w /\ this_ttl w2 = this_ttl w.
Proof.
  apply (remove_then_add_replaces "a" (Js.Str "y")
           (snd (add "a" (Js.Str "x") (new_TTLCache 50 0))));
    [discriminate | reflexivity].
Defined.

(** ** What an event can and cannot touch *)

Lemma fire_fields (effective_delay : Z -> Z) (i : nat) (w : World) :
  this_ttl (snd (fire effective_delay i w)) = this_ttl w /\
  now (snd (fire effective_delay i w)) = now w /\
  forall other, tkey <$> pending w !! i <> Some other ->
    cache (snd (fire effective_delay i w)) !! other = cache w !! other.
Proof.
  destruct (fire_world effective_delay i w) as [-> | (t & Ht & Hd & Hf)]; [auto |].
  rewrite Hf. unfold bind, dequeue, callback, bind.
  set (w1 := mkWorld (this_ttl w) (cache w) (delete i (pending w)) (now w)).
  rewrite Ht. cbn [fmap option_fmap option_map].
  destruct (remove_world (tkey t) w1) as [Hsame | (Hk & Hp & Hrm)].
  - assert (Hw : (let (o, w') := remove (tkey t) w1 in
                  match o with
                  | Return _ => ret tt w'
                  | Throw message => (Throw message, w')
                  end).2 = w1).
    { destruct (remove (tkey t) w1) as [[b | m] w'] eqn:Hr; cbn in Hsame |- *; exact Hsame. }
    rewrite Hw. cbn. auto.
  - rewrite (remove_present Hk Hp). cbn.
    repeat split. intros other Hne. apply lookup_delete_ne. congruence.
Qed.

(** X7: an event writes at most one key.  Every other key keeps its entry,
    [this.ttl] never changes, and no call moves the clock. *)
Theorem events_touch_one_key
  (effective_delay : Z -> Z) (e : Event) (w : World) (other : string) :
  this_ttl (exec effective_delay e w) = this_ttl w /\
  (is_call e = true -> now (exec effective_delay e w) = now w) /\
  (touched e w <> Some other ->
     cache (exec effective_delay e w) !! other = cache w !! other).
Proof.
  destruct e as [key v | key | key | key v | key | d | i | key v | key n];
    cbn [exec touched is_call].
  - destruct (add_world key v w) as [-> | (Hk & Hv & Ha & ->)]; [auto |].
    cbn. repeat split. intros Hne. apply lookup_insert_ne. congruence.
  - rewrite get_world. auto.
  - rewrite _get_world. auto.
  - destruct (update_world key v w) as [-> | (Hk & Hv & e & He & ->)]; [auto |].
    cbn. repeat split. intros Hne. apply lookup_insert_ne. congruence.
  - destruct (remove_world key w) as [-> | (Hk & Hp & ->)]; [auto |].
    cbn. repeat split. intros Hne. apply lookup_delete_ne. congruence.
  - cbn. repeat split. discriminate.
  - destruct (fire_fields effective_delay i w) as (Ht & Hn & Hc).
    repeat split; [exact Ht | discriminate | apply Hc].
  - destruct (write_value_world key v w) as [-> | (Hk & e & He & ->)]; [auto |].
    cbn. repeat split. intros Hne. apply lookup_insert_ne. congruence.
  - destruct (write_ttl_world key n w) as [-> | (Hk & e & He & ->)]; [auto |].
    cbn. repeat split. intros Hne. apply lookup_insert_ne. congruence.
Qed.

(** X8: no call of a public method ever takes a timer out of the queue, and
    a timer is scheduled exactly when a call makes a key appear: either the
    queue is as it was and no key has appeared, or the call was an [add] of an
    absent key, which now holds the value with the store's [ttl], and one
    timer for that key, with the store's [ttl] as delay, was appended. *)
Theorem calls_never_cancel_timers
  (effective_delay : Z -> Z) (e : Event) (w : World) :
  is_call e = true ->
  let w' := exec effective_delay e w in
  (pending w' = pending w /\
   forall key, cache w !! key = None -> cache w' !! key = None) \/
  (exists key v,
     e = Call_add key v /\ cache w !! key = None /\
     cache w' !! key = Some (mkEntry v (this_ttl w)) /\
     pending w' = (pending w ++ [mkTimer key (this_ttl w) (now w)])%list).
Proof.
  intros Hcall w'. subst w'.
  destruct e as [key v | key | key | key v | key | d | i | key v | key n]; cbn [exec];
    try discriminate Hcall.
  - destruct (add_world key v w) as [-> | (Hk & Hv & Ha & ->)]; [left; auto |].
    right. exists key, v. cbn. rewrite lookup_insert_eq. auto.
  - rewrite get_world. left. auto.
  - rewrite _get_world. left. auto.
  - destruct (update_world key v w) as [-> | (Hk & Hv & e & He & ->)]; [left; auto |].
    left. cbn. split; [reflexivity |]. intros k Hnone.
    rewrite lookup_insert_ne; [exact Hnone | congruence].
  - destruct (remove_world key w) as [-> | (Hk & Hp & ->)]; [left; auto |].
    left. cbn. split; [reflexivity |]. intros k Hnone.
    rewrite lookup_delete. case_decide; [reflexivity | exact Hnone].
Qed.

Lemma calls_never_cancel_timers_witness :
  let w := snd (add "a" (Js.Str "x") (new_TTLCache 50 0)) in
  let w' := exec node_delay (Call_remove "a") w in
  (pending w' = pending w /\
   forall key, cache w !! key = None -> cache w' !! key = None) \/
  (exists key v,
     Call_remove "a" = Call_add key v /\ cache w !! key = None /\
     cache w' !! key = Some (mkEntry v (this_ttl w)) /\
     pending w' = (pending w ++ [mkTimer key (this_ttl w) (now w)])%list).
Proof.
  apply (calls_never_cancel_timers node_delay (Call_remove "a")
           (snd (add "a" (Js.Str "x") (new_TTLCache 50 0)))).
  reflexivity.
Defined.

Lemma exec_keeps_absent
  (effective_delay : Z -> Z) (e : Event) (key : string) (w : World) :
  cache w !! key = None -> adds key e = false ->
  cache (exec effective_delay e w) !! key = None.
Proof.
  intros Ha He.
  destruct e as [k v | k | k | k v | k | d | i | k v | k n]; cbn [exec].
  - destruct (add_world k v w) as [-> | (Hk & Hv & Hn & ->)]; [exact Ha |].
    cbn in He |- *. apply bool_decide_eq_false in He.
    rewrite lookup_insert_ne; [exact Ha | exact He].
  - rewrite get_world. exact Ha.
  - rewrite _get_world. exact Ha.
  - destruct (update_world k v w) as [-> | (Hk & Hv & e & Hsome & ->)]; [exact Ha |].
    cbn. rewrite lookup_insert_ne; [exact Ha | congruence].
  - destruct (remove_world k w) as [-> | (Hk & Hp & ->)]; [exact Ha |].
    cbn. rewrite lookup_delete. case_decide; [reflexivity | exact Ha].
  - exact Ha.
  - destruct (fire_world effective_delay i w) as [-> | (t & Ht & Hd & Hf)]; [exact Ha |].
    rewrite Hf. unfold bind, dequeue, callback, bind.
    set (w1 := mkWorld (this_ttl w) (cache w) (delete i (pending w)) (now w)).
    destruct (remove_world (tkey t) w1) as [Hsame | (Hk & Hp & Hrm)].
    + destruct (remove (tkey t) w1) as [[b | m] w'] eqn:Hr; cbn in Hsame |- *;
        rewrite Hsame; exact Ha.
    + rewrite (remove_present Hk Hp). cbn.
      rewrite lookup_delete. case_decide; [reflexivity | exact Ha].
  - destruct (write_value_world k v w) as [-> | (Hk & e & Hsome & ->)]; [exact Ha |].
    cbn. rewrite lookup_insert_ne; [exact Ha | congruence].
  - destruct (write_ttl_world k n w) as [-> | (Hk & e & Hsome & ->)]; [exact Ha |].
    cbn. rewrite lookup_insert_ne; [exact Ha | congruence].
Qed.

(** X9: a key is never present unless it was added: if the key is absent and
    the run contains no [add] of it, it is still absent afterwards, so [get]
    and [_get] return [null]; whatever else was called, [update] included. *)
Theorem never_added_never_present
  (effective_delay : Z -> Z) (es : list Event) (key : string) (w : World) :
  key <> "" ->
  cache w !! key = None ->
  forallb (fun e => negb (adds key e)) es = true ->
  let w' := run effective_delay es w in
  cache w' !! key = None /\
  fst (get key w') = Return Js.Null /\
  fst (_get key w') = Return None.
Proof.
  intros Hk Ha Hes w'.
  assert (Hnone : cache w' !! key = None).
  { subst w'. revert w Ha Hes. induction es as [| e es IH]; intros w Ha Hes; [exact Ha |].
    cbn [forallb] in Hes. apply andb_prop in Hes as [He Hes].
    rewrite run_cons. apply IH; [| exact Hes].
    apply exec_keeps_absent; [exact Ha | apply negb_true_iff, He]. }
  rewrite (get_absent Hk Hnone), (_get_nonempty_key Hk), Hnone. auto.
Qed.

Lemma never_added_never_present_witness :
  let w' := run node_delay
              [Call_add "a" (Js.Str "x"); Call_update "b" (Js.Str "y");
               Call_remove "b"; Elapse 60; Fire 0]
              (new_TTLCache 50 0) in
  cache w' !! "b" = None /\
  fst (get "b" w') = Return Js.Null /\
  fst (_get "b" w') = Return None.
Proof.
  apply (never_added_never_present node_delay
           [Call_add "a" (Js.Str "x"); Call_update "b" (Js.Str "y");
            Call_remove "b"; Elapse 60; Fire 0]
           "b" (new_TTLCache 50 0));
    [discriminate | reflexivity | reflexivity].
Defined.

(** ** Runs in which [remove] is never called *)

Lemma delete_other_key (i : nat) (t x : Timer) (l : list Timer) :
  NoDup (tkey <$> l) -> l !! i = Some t -> x ∈ delete i l ->
  x ∈ l /\ tkey x <> tkey t.
Proof.
  intros Hnd Hi Hx. split; [exact (list_subseteq_delete i l x Hx) |].
  apply list_elem_of_lookup_1 in Hx as [j Hj]. rewrite list_lookup_delete in Hj.
  intros Heq.
  assert (Hsame : (if decide (j < i)%nat then j else S j) = i).
  { apply (NoDup_lookup (tkey <$> l) _ _ (tkey t) Hnd).
    - rewrite list_lookup_fmap, Hj. cbn. congruence.
    - rewrite list_lookup_fmap, Hi. reflexivity. }
  case_decide; lia.
Qed.

Lemma at_most_one_with_key (key : string) (l : list Timer) :
  NoDup (tkey <$> l) -> (length (filter (fun t => tkey t = key) l) <= 1)%nat.
Proof.
  induction l as [| x l IH]; intros Hnd; [cbn; lia |].
  rewrite fmap_cons in Hnd. apply NoDup_cons in Hnd as [Hx Hnd].
  destruct (decide (tkey x = key)) as [Heq | Hne].
  - rewrite filter_cons_True by exact Heq.
    assert (Hnil : filter (fun t => tkey t = key) l = []).
    { destruct (filter (fun t => tkey t = key) l) as [| y l'] eqn:Hf; [reflexivity |].
      exfalso. assert (Hy : y ∈ filter (fun t => tkey t = key) l)
        by (rewrite Hf; apply list_elem_of_here).
      apply list_elem_of_filter in Hy as [Hk Hy]. apply Hx.
      rewrite Heq, <- Hk. apply list_elem_of_fmap_2, Hy. }
    rewrite Hnil. cbn. lia.
  - rewrite filter_cons_False by exact Hne. apply IH, Hnd.
Qed.

Section WithoutRemove.

Variable effective_delay : Z -> Z.

Lemma one_timer_each_exec (ttl0 : Z) (e : Event) (w : World) (born : gmap string Z) :
  is_remove e = false -> consistent ttl0 w -> one_timer_each w born ->
  one_timer_each (exec effective_delay e w)
                 (stamp w (exec effective_delay e w) born).
Proof.
  intros He Hw [Hnd Hown].
  assert (Hsame : forall w', cache w' = cache w -> pending w' = pending w ->
            one_timer_each w' (stamp w w' born)).
  { intros w' Hc Hp. split; [rewrite Hp; exact Hnd |].
    intros t Ht. rewrite Hp in Ht. destruct (Hown t Ht) as [[e' He'] Hb].
    rewrite stamp_lookup, Hc, He'. eauto. }
  assert (Hreplace : forall key (x e : CacheEntry),
            cache w !! key = Some e ->
            let w' := mkWorld (this_ttl w) (<[key := x]> (cache w)) (pending w) (now w) in
            one_timer_each w' (stamp w w' born)).
  { intros key x e0 Hsome w'. split; [exact Hnd |]. cbn.
    intros t Ht. destruct (Hown t Ht) as [[e' He'] Hb]. rewrite stamp_lookup. cbn.
    rewrite lookup_insert. case_decide as Hd; rewrite He'; eauto. }
  destruct e as [key v | key | key | key v | key | d | i | key v | key n]; cbn [exec];
    try discriminate He.
  - destruct (add_world key v w) as [-> | (Hk & Hv & Ha & ->)]; [apply Hsame; reflexivity |].
    assert (Hfresh : forall t, t ∈ pending w -> tkey t <> key).
    { intros t Ht Heq. destruct (Hown t Ht) as [[e' He'] _]. congruence. }
    split; cbn.
    + rewrite fmap_app. apply NoDup_app. split; [exact Hnd |].
      split; [| apply NoDup_singleton].
      intros k [t [-> Ht]]%list_elem_of_fmap_1 Hin%list_elem_of_singleton.
      exact (Hfresh t Ht Hin).
    + intros t [Ht | ->%list_elem_of_singleton]%elem_of_app; rewrite stamp_lookup; cbn.
      * destruct (Hown t Ht) as [[e' He'] Hb].
        rewrite lookup_insert_ne by (intros Heq; exact (Hfresh t Ht (eq_sym Heq))).
        rewrite He'. eauto.
      * rewrite lookup_insert_eq, Ha. eauto.
  - rewrite get_world. apply Hsame; reflexivity.
  - rewrite _get_world. apply Hsame; reflexivity.
  - destruct (update_world key v w) as [-> | (Hk & Hv & e & Hsome & ->)];
      [apply Hsame; reflexivity | apply (Hreplace key _ e Hsome)].
  - apply Hsame; reflexivity.
  - destruct (fire_world effective_delay i w) as [-> | (t & Ht & Hd & _)];
      [apply Hsame; reflexivity |].
    destruct Hw as (_ & _ & Hpend).
    assert (Hk : tkey t <> "") by (apply (Hpend t); eapply list_elem_of_lookup_2; exact Ht).
    rewrite (fire_due_fields _ _ _ _ Ht Hd Hk).
    split; cbn.
    + rewrite list_fmap_delete. eapply sublist_NoDup; [exact Hnd | apply sublist_delete].
    + intros x Hx. destruct (delete_other_key i t x _ Hnd Ht Hx) as [Hin Hne].
      destruct (Hown x Hin) as [[e' He'] Hb]. rewrite stamp_lookup. cbn.
      rewrite lookup_delete_ne by congruence. rewrite He'. eauto.
  - destruct (write_value_world key v w) as [-> | (Hk & e & Hsome & ->)];
      [apply Hsame; reflexivity | apply (Hreplace key _ e Hsome)].
  - destruct (write_ttl_world key n w) as [-> | (Hk & e & Hsome & ->)];
      [apply Hsame; reflexivity | apply (Hreplace key _ e Hsome)].
Qed.

Lemma one_timer_each_run (ttl0 : Z) (es : list Event) :
  forall (w : World) (born : gmap string Z),
    forallb (fun e => negb (is_remove e)) es = true ->
    consistent ttl0 w -> one_timer_each w born ->
    one_timer_each (run effective_delay es w)
                   (insertion_times effective_delay es w born).
Proof.
  induction es as [| e es IH]; intros w born Hes Hw Hone; [exact Hone |].
  cbn [forallb] in Hes. apply andb_prop in Hes as [He Hes].
  rewrite run_cons. cbn [insertion_times].
  apply IH; [exact Hes | apply consistent_exec, Hw |].
  apply (one_timer_each_exec ttl0); [apply negb_true_iff, He | exact Hw | exact Hone].
Qed.

Lemma one_timer_each_new (ttl0 t0 : Z) : one_timer_each (new_TTLCache ttl0 t0) ∅.
Proof.
  split; cbn; [apply NoDup_nil_2 |]. intros t Ht. apply elem_of_nil in Ht. contradiction.
Qed.

End WithoutRemove.

(** X10: as long as [remove] is never called, the invariant of the data
    model holds as it is worded: after any such run from the constructor
    every present key has exactly one pending timer, and an absent key has
    none. *)
Theorem without_remove_one_timer_per_key
  (effective_delay : Z -> Z) (ttl0 t0 : Z) (es : list Event) :
  forallb (fun e => negb (is_remove e)) es = true ->
  let w := run effective_delay es (new_TTLCache ttl0 t0) in
  exactly_one_timer_per_key w /\
  (forall key, cache w !! key = None -> timers_for key w = 0%nat).
Proof.
  intros Hes w.
  destruct (one_timer_each_run effective_delay ttl0 es (new_TTLCache ttl0 t0) ∅ Hes
              (consistent_new ttl0 t0) (one_timer_each_new ttl0 t0)) as [Hnd Hown].
  fold w in Hnd, Hown.
  split.
  - intros key Hs.
    assert (Hpresent : own_timer_pending w
              (insertion_times effective_delay es (new_TTLCache ttl0 t0) ∅)).
    { apply (own_timer_run effective_delay ttl0); [apply consistent_new |].
      intros k Hk. cbn in Hk. rewrite lookup_empty in Hk. destruct Hk; discriminate. }
    destruct (Hpresent key Hs) as (b & _ & Hin).
    pose proof (timers_for_positive key _ w Hin eq_refl) as Hge.
    pose proof (at_most_one_with_key key (pending w) Hnd) as Hle.
    unfold timers_for in *. lia.
  - intros key Ha. unfold timers_for.
    destruct (filter (fun t => tkey t = key) (pending w)) as [| y l] eqn:Hf; [reflexivity |].
    exfalso. assert (Hy : y ∈ filter (fun t => tkey t = key) (pending w))
      by (rewrite Hf; apply list_elem_of_here).
    apply list_elem_of_filter in Hy as [Hk Hy].
    destruct (Hown y Hy) as [[e He] _]. congruence.
Qed.

Lemma without_remove_one_timer_per_key_witness :
  let w := run node_delay
             [Call_add "a" (Js.Str "x"); Elapse 60; Fire 0; Call_add "a" (Js.Str "y");
              Call_add "b" (Js.Str "z"); Call_update "b" (Js.Str "u")]
             (new_TTLCache 50 0) in
  exactly_one_timer_per_key w /\
  (forall key, cache w !! key = None -> timers_for key w = 0%nat).
Proof.
  apply (without_remove_one_timer_per_key node_delay 50 0
           [Call_add "a" (Js.Str "x"); Elapse 60; Fire 0; Call_add "a" (Js.Str "y");
            Call_add "b" (Js.Str "z"); Call_update "b" (Js.Str "u")]).
  reflexivity.
Defined.

(** X11: as long as [remove] is never called, no entry is discarded early: a
    timer that takes effect deletes the entry whose insertion created it,
    and by then the platform's effective delay for the store's [ttl] has
    passed since that insertion (hence [ttl] itself, on a platform that waits
    at least what it is asked for). *)
Theorem without_remove_no_early_expiry
  (effective_delay : Z -> Z) (ttl0 t0 : Z) (es : list Event) (i : nat) (t : Timer) :
  forallb (fun e => negb (is_remove e)) es = true ->
  let w := run effective_delay es (new_TTLCache ttl0 t0) in
  let born := insertion_times effective_delay es (new_TTLCache ttl0 t0) ∅ in
  pending w !! i = Some t ->
  exec effective_delay (Fire i) w <> w ->
  is_Some (cache w !! tkey t) /\
  born !! tkey t = Some (created t) /\
  created t + effective_delay ttl0 <= now w /\
  (ttl0 <= effective_delay ttl0 -> created t + ttl0 <= now w) /\
  cache (exec effective_delay (Fire i) w) !! tkey t = None.
Proof.
  intros Hes w born Ht Hchanged.
  destruct (one_timer_each_run effective_delay ttl0 es (new_TTLCache ttl0 t0) ∅ Hes
              (consistent_new ttl0 t0) (one_timer_each_new ttl0 t0)) as [_ Hown].
  fold w born in Hown.
  destruct (consistent_run effective_delay ttl0 t0 es) as (_ & _ & Hpend). fold w in Hpend.
  assert (Hin : t ∈ pending w) by (eapply list_elem_of_lookup_2; exact Ht).
  destruct (Hown t Hin) as [Hs Hb]. destruct (Hpend t Hin) as (Hk & Hreq & _).
  pose proof (fire_changes_only_when_due effective_delay i t w Ht Hchanged) as Hlate.
  rewrite Hreq in Hlate.
  assert (Hd : due effective_delay t w = true)
    by (unfold due; rewrite Hreq; apply Z.leb_le; exact Hlate).
  repeat split; [exact Hs | exact Hb | exact Hlate | lia |].
  cbn [exec]. rewrite (fire_due_fields _ _ _ _ Ht Hd Hk). cbn. apply lookup_delete_eq.
Qed.

Lemma without_remove_no_early_expiry_witness :
  let es := [Call_add "a" (Js.Str "x"); Elapse 60] in
  let w := run node_delay es (new_TTLCache 50 0) in
  let born := insertion_times node_delay es (new_TTLCache 50 0) ∅ in
  let t := mkTimer "a" 50 0 in
  is_Some (cache w !! tkey t) /\
  born !! tkey t = Some (created t) /\
  created t + node_delay 50 <= now w /\
  (50 <= node_delay 50 -> created t + 50 <= now w) /\
  cache (exec node_delay (Fire 0) w) !! tkey t = None.
Proof.
  apply (without_remove_no_early_expiry node_delay 50 0
           [Call_add "a" (Js.Str "x"); Elapse 60] 0%nat (mkTimer "a" 50 0)).
  - reflexivity.
  - reflexivity.
  - vm_compute. discriminate.
Defined.

(** ** Every entry is discarded in the end *)

Section Expiry.

Variable effective_delay : Z -> Z.

Lemma run_app (es1 es2 : list Event) (w : World) :
  run effective_delay (es1 ++ es2) w = run effective_delay es2 (run effective_delay es1 w).
Proof. unfold run. apply fold_left_app. Qed.

(** When every pending timer is due, picking the oldest one as many times as
    there are timers empties the queue. *)
Lemma fire_oldest_empties_queue (l : list Timer) :
  forall w : World,
    pending w = l ->
    (forall t, t ∈ l -> tkey t <> "" /\ due effective_delay t w = true) ->
    pending (run effective_delay (replicate (length l) (Fire 0)) w) = [].
Proof.
  induction l as [| t l IH]; intros w Hp Hall; [exact Hp |].
  cbn [length replicate]. rewrite run_cons.
  destruct (Hall t (list_elem_of_here t l)) as [Hk Hd].
  assert (H0 : pending w !! 0%nat = Some t) by (rewrite Hp; reflexivity).
  cbn [exec]. rewrite (fire_due_fields _ _ _ _ H0 Hd Hk). cbn [snd].
  apply IH.
  - cbn. rewrite Hp. reflexivity.
  - intros x Hx. destruct (Hall x (list_elem_of_further x t l Hx)) as [Hxk Hxd].
    split; [exact Hxk | exact Hxd].
Qed.

(** A cache reached from the constructor with no timer pending is empty. *)
Lemma no_timer_no_entry (ttl0 t0 : Z) (es : list Event) :
  pending (run effective_delay es (new_TTLCache ttl0 t0)) = [] ->
  cache (run effective_delay es (new_TTLCache ttl0 t0)) = ∅.
Proof.
  intros Hp. apply map_empty. intros key.
  destruct (cache (run effective_delay es (new_TTLCache ttl0 t0)) !! key) as [e |] eqn:He;
    [exfalso | reflexivity].
  assert (Hown : own_timer_pending (run effective_delay es (new_TTLCache ttl0 t0))
            (insertion_times effective_delay es (new_TTLCache ttl0 t0) ∅)).
  { apply (own_timer_run effective_delay ttl0); [apply consistent_new |].
    intros k Hk. cbn in Hk. rewrite lookup_empty in Hk. destruct Hk; discriminate. }
  destruct (Hown key) as (b & _ & Hin); [rewrite He; eauto |].
  rewrite Hp in Hin. apply elem_of_nil in Hin. exact Hin.
Qed.

End Expiry.

(** X12: every entry is discarded in the end, whatever was called before:
    once the platform's effective delay for the store's [ttl] has passed and
    the platform has run every pending timer, the cache is empty and no timer
    is left. *)
Theorem every_entry_expires
  (effective_delay : Z -> Z) (ttl0 t0 : Z) (es : list Event) (d : N) :
  effective_delay ttl0 <= Z.of_N d ->
  let w := run effective_delay es (new_TTLCache ttl0 t0) in
  let w' := run effective_delay (expire_all d w) w in
  cache w' = ∅ /\ pending w' = [] /\
  (forall key, key <> "" -> fst (get key w') = Return Js.Null).
Proof.
  intros Hd w w'.
  assert (Hp : pending w' = []).
  { subst w'. unfold expire_all. rewrite run_cons. cbn [exec].
    apply fire_oldest_empties_queue; [reflexivity |].
    intros t Ht.
    destruct (consistent_run effective_delay ttl0 t0 es) as (_ & _ & Hpend).
    destruct (Hpend t Ht) as (Hk & Hreq & Hcreated).
    split; [exact Hk |]. unfold due, elapse. cbn. rewrite Hreq. apply Z.leb_le.
    fold w in Hcreated. lia. }
  assert (Hc : cache w' = ∅).
  { subst w' w. rewrite <- run_app in Hp |- *. apply no_timer_no_entry, Hp. }
  repeat split; [exact Hc | exact Hp |].
  intros key Hk. apply (f_equal fst (get_absent Hk (w := w') ltac:(rewrite Hc; apply lookup_empty))).
Qed.

Lemma every_entry_expires_witness :
  let w := run node_delay
             [Call_add "a" (Js.Str "x"); Elapse 10; Call_remove "a";
              Call_add "a" (Js.Str "y"); Call_add "b" (Js.Str "z")]
             (new_TTLCache 50 0) in
  let w' := run node_delay (expire_all 50 w) w in
  cache w' = ∅ /\ pending w' = [] /\
  (forall key, key <> "" -> fst (get key w') = Return Js.Null).
Proof.
  apply (every_entry_expires node_delay 50 0
           [Call_add "a" (Js.Str "x"); Elapse 10; Call_remove "a";
            Call_add "a" (Js.Str "y"); Call_add "b" (Js.Str "z")] 50%N).
  vm_compute. discriminate.
Defined.

(** ** Where a stored value comes from *)

Lemma fire_cache (effective_delay : Z -> Z) (i : nat) (w : World) :
  cache (snd (fire effective_delay i w)) = cache w \/
  exists t, cache (snd (fire effective_delay i w)) = delete (tkey t) (cache w).
Proof.
  destruct (fire_world effective_delay i w) as [-> | (t & Ht & Hd & Hf)]; [left; reflexivity |].
  destruct (decide (tkey t = "")) as [Hk | Hk].
  - left. rewrite Hf. unfold bind, dequeue, callback, bind.
    rewrite (remove_empty_key Hk). reflexivity.
  - right. exists t. rewrite (fire_due_fields _ _ _ _ Ht Hd Hk). reflexivity.
Qed.

Lemma exec_provenance
  (effective_delay : Z -> Z) (e : Event) (w : World) (key : string) (entry : CacheEntry) :
  cache (exec effective_delay e w) !! key = Some entry ->
  (exists old, cache w !! key = Some old /\ value old = value entry) \/
  e = Call_add key (value entry) \/ e = Call_update key (value entry) \/
  e = Write_value key (value entry).
Proof.
  assert (Hkeep : cache w !! key = Some entry ->
            (exists old, cache w !! key = Some old /\ value old = value entry) \/
            e = Call_add key (value entry) \/ e = Call_update key (value entry) \/
            e = Write_value key (value entry)) by eauto.
  destruct e as [k v | k | k | k v | k | d | i | k v | k n]; cbn [exec].
  - destruct (add_world k v w) as [-> | (Hk & Hv & Ha & ->)]; [exact Hkeep |].
    cbn. rewrite lookup_insert. case_decide as Hd; [| eauto].
    intros [= <-]. subst k. auto.
  - rewrite get_world. exact Hkeep.
  - rewrite _get_world. exact Hkeep.
  - destruct (update_world k v w) as [-> | (Hk & Hv & e & He & ->)]; [exact Hkeep |].
    cbn. rewrite lookup_insert. case_decide as Hd; [| eauto].
    intros [= <-]. subst k. auto.
  - destruct (remove_world k w) as [-> | (Hk & Hp & ->)]; [exact Hkeep |].
    cbn. rewrite lookup_delete. case_decide; [discriminate | eauto].
  - exact Hkeep.
  - destruct (fire_cache effective_delay i w) as [-> | [t ->]]; [exact Hkeep |].
    rewrite lookup_delete. case_decide; [discriminate | eauto].
  - destruct (write_value_world k v w) as [-> | (Hk & e & He & ->)]; [exact Hkeep |].
    cbn. rewrite lookup_insert. case_decide as Hd; [| eauto].
    intros [= <-]. subst k. auto.
  - destruct (write_ttl_world k n w) as [-> | (Hk & e & He & ->)]; [exact Hkeep |].
    cbn. rewrite lookup_insert. case_decide as Hd; [| eauto].
    intros [= <-]. subst k. left. exists e. auto.
Qed.

(** X13: the class never makes up a value and never moves one between keys:
    after any run from the constructor, the value found under a key was
    passed to an [add] or an [update] of that same key earlier in the run, or
    the owner wrote it into the entry of that key. *)
Theorem stored_value_was_written
  (effective_delay : Z -> Z) (ttl0 t0 : Z) (es : list Event)
  (key : string) (entry : CacheEntry) :
  cache (run effective_delay es (new_TTLCache ttl0 t0)) !! key = Some entry ->
  Call_add key (value entry) ∈ es \/ Call_update key (value entry) ∈ es \/
  Write_value key (value entry) ∈ es.
Proof.
  revert entry. induction es as [| e es IH] using rev_ind; intros entry H.
  - cbn in H. rewrite lookup_empty in H. discriminate.
  - rewrite run_snoc in H. rewrite !elem_of_app, !list_elem_of_singleton.
    destruct (exec_provenance _ _ _ _ _ H) as [(old & Hold & Hv) | [-> | [-> | ->]]];
      [| auto | auto | auto].
    rewrite <- Hv. destruct (IH old Hold) as [? | [? | ?]]; auto.
Qed.

Lemma stored_value_was_written_witness :
  let es := [Call_add "a" (Js.Str "x"); Call_add "b" (Js.Str "y");
             Call_update "a" (Js.Str "y"); Write_ttl "a" 7] in
  Call_add "a" (value (mkEntry (Js.Str "y") 7)) ∈ es \/
  Call_update "a" (value (mkEntry (Js.Str "y") 7)) ∈ es \/
  Write_value "a" (value (mkEntry (Js.Str "y") 7)) ∈ es.
Proof.
  apply (stored_value_was_written node_delay 50 0
           [Call_add "a" (Js.Str "x"); Call_add "b" (Js.Str "y");
            Call_update "a" (Js.Str "y"); Write_ttl "a" 7]
           "a" (mkEntry (Js.Str "y") 7)).
  reflexivity.
Defined.

(** ** The entry that [_get] returns is the stored one *)

(** X14: what the owner writes into the entry returned by [_get] is what
    the cache holds from then on: [get] returns the written value, falsy or
    not, [_get] returns the written fields, and a later [update] keeps the
    written [ttl].  The other keys, the pending timers and the clock are not
    touched.  On a miss there is nothing to write into: the statement throws
    and changes nothing. *)
Theorem owner_write_is_seen (key : string) (v : Js.value) (n : Z) (w : World) :
  key <> "" ->
  (cache w !! key = None ->
     throws (fst (write_value key v w)) /\ snd (write_value key v w) = w /\
     throws (fst (write_ttl key n w)) /\ snd (write_ttl key n w) = w) /\
  (is_Some (cache w !! key) ->
     let w1 := snd (write_value key v w) in
     let w2 := snd (write_ttl key n w1) in
     fst (get key w1) = Return v /\
     fst (_get key w2) = Return (Some (mkEntry v n)) /\
     (forall v', Js.truthy v' = true ->
        fst (update key v' w2) = Return true /\
        fst (_get key (snd (update key v' w2))) = Return (Some (mkEntry v' n))) /\
     (forall other, other <> key -> cache w2 !! other = cache w !! other) /\
     pending w2 = pending w /\ now w2 = now w /\ this_ttl w2 = this_ttl w).
Proof.
  intros Hk. split.
  - intros Ha. unfold write_value, write_ttl, bind.
    rewrite (_get_nonempty_key Hk), Ha. cbn.
    repeat split; apply throws_Throw.
  - intros [e He] w1 w2.
    assert (H1 : w1 = mkWorld (this_ttl w) (<[key := mkEntry v (ttl e)]> (cache w))
                              (pending w) (now w)).
    { subst w1. unfold write_value, bind. rewrite (_get_nonempty_key Hk), He.
      unfold entry_set_value. rewrite He. reflexivity. }
    assert (He1 : cache w1 !! key = Some (mkEntry v (ttl e)))
      by (rewrite H1; cbn; apply lookup_insert_eq).
    assert (H2 : w2 = mkWorld (this_ttl w) (<[key := mkEntry v n]> (cache w))
                              (pending w) (now w)).
    { subst w2. unfold write_ttl, bind. rewrite (_get_nonempty_key Hk), He1.
      unfold entry_set_ttl. rewrite He1, H1. cbn. rewrite insert_insert_eq. reflexivity. }
    assert (He2 : cache w2 !! key = Some (mkEntry v n))
      by (rewrite H2; cbn; apply lookup_insert_eq).
    split; [rewrite (get_present _ Hk He1); reflexivity |].
    split; [rewrite (_get_nonempty_key Hk), He2; reflexivity |].
    split.
    { intros v' Hv'. rewrite (update_present _ Hk Hv' He2). cbn [fst snd].
      split; [reflexivity |]. rewrite (_get_nonempty_key Hk). cbn.
      rewrite lookup_insert_eq. reflexivity. }
    rewrite H2. cbn. repeat split.
    intros other Hne. apply lookup_insert_ne. congruence.
Qed.

Lemma owner_write_is_seen_witness :
  let w := snd (add "a" (Js.Str "x") (new_TTLCache 50 0)) in
  let w1 := snd (write_value "a" (Js.Number 0%float) w) in
  let w2 := snd (write_ttl "a" 999 w1) in
  fst (get "a" w1) = Return (Js.Number 0%float) /\
  fst (_get "a" w2) = Return (Some (mkEntry (Js.Number 0%float) 999)) /\
  (forall v', Js.truthy v' = true ->
     fst (update "a" v' w2) = Return true /\
     fst (_get "a" (snd (update "a" v' w2))) = Return (Some (mkEntry v' 999))) /\
  (forall other, other <> "a" -> cache w2 !! other = cache w !! other) /\
  pending w2 = pending w /\ now w2 = now w /\ this_ttl w2 = this_ttl w.
Proof.
  apply (proj2 (owner_write_is_seen "a" (Js.Number 0%float) 999
                  (snd (add "a" (Js.Str "x") (new_TTLCache 50 0)))
                  ltac:(discriminate))).
  vm_compute. eauto.
Defined.
